(** * Homedy listings cleaner: [clean_data.py]

    A shallow embedding of the price parser, the district splitter and the
    table pass of [src/data/homedy/clean_data.py], and the properties of the
    specification checked against them.

    Conventions of the embedding:
    - a Python [str] is a list of Unicode code points ([str := list N]);
      literals are written in UTF-8 and decoded by [utf8];
    - a Python [float] is an IEEE-754 binary64 value ([spec_float] with
      [prec = 53], [emax = 1024]); arithmetic is that of [SpecFloat];
    - a function that can raise returns a [result];
    - the regular expressions of the source are values of [regex], run by a
      backtracking matcher with Python's priorities (leftmost start, ordered
      alternation, greedy repetition). *)

From Stdlib Require Import List NArith ZArith Bool Lia Ascii String QArith.
From Stdlib Require Import SpecFloat.
Import ListNotations.
Close Scope Q_scope.

(** ** Strings as code point lists *)

Module Str.

Definition char := N.
Definition str := list char.

Fixpoint bytes_of (s : string) : list N :=
  match s with
  | EmptyString => []
  | String a s' => N_of_ascii a :: bytes_of s'
  end.

(** UTF-8 decoding of well-formed input: [need] continuation bytes are still
    expected and [acc] holds the bits read so far. *)
Fixpoint utf8_go (need : nat) (acc : N) (bs : list N) : str :=
  match bs with
  | [] => []
  | b :: bs' =>
    match need with
    | O =>
      if (b <? 128)%N then b :: utf8_go 0 0 bs'
      else if (b <? 224)%N then utf8_go 1 (b - 192) bs'
      else if (b <? 240)%N then utf8_go 2 (b - 224) bs'
      else utf8_go 3 (b - 240) bs'
    | S O => (acc * 64 + (b - 128))%N :: utf8_go 0 0 bs'
    | S n => utf8_go n (acc * 64 + (b - 128))%N bs'
    end
  end.

Definition utf8 (s : string) : str := utf8_go 0 0 (bytes_of s).

Definition eqb_char (a b : char) : bool := (a =? b)%N.

Fixpoint eqb_str (a b : str) : bool :=
  match a, b with
  | [], [] => true
  | x :: a', y :: b' => eqb_char x y && eqb_str a' b'
  | _, _ => false
  end.

Fixpoint starts_with (p s : str) : bool :=
  match p, s with
  | [], _ => true
  | x :: p', y :: s' => eqb_char x y && starts_with p' s'
  | _ :: _, [] => false
  end.

(** [needle in hay] *)
Fixpoint contains (needle hay : str) : bool :=
  match hay with
  | [] => starts_with needle []
  | _ :: hay' => starts_with needle hay || contains needle hay'
  end.

(** [str.isspace] of one character, which is also the class [\s] of a
    [str] pattern. *)
Definition is_space (c : char) : bool :=
  ((9 <=? c) && (c <=? 13) || (28 <=? c) && (c <=? 32) || (c =? 133)
   || (c =? 160) || (c =? 5760) || (8192 <=? c) && (c <=? 8202)
   || (c =? 8232) || (c =? 8233) || (c =? 8239) || (c =? 8287)
   || (c =? 12288))%N.

Fixpoint lstrip_by (p : char -> bool) (s : str) : str :=
  match s with
  | [] => []
  | c :: s' => if p c then lstrip_by p s' else s
  end.

Definition rstrip_by (p : char -> bool) (s : str) : str :=
  rev (lstrip_by p (rev s)).

Definition strip_by (p : char -> bool) (s : str) : str :=
  rstrip_by p (lstrip_by p s).

(** [s.strip()] *)
Definition strip (s : str) : str := strip_by is_space s.

Definition mem_char (c : char) (cs : str) : bool := existsb (eqb_char c) cs.

(** [s.strip(chars)] *)
Definition strip_chars (cs : str) (s : str) : str :=
  strip_by (fun c => mem_char c cs) s.

(** [s.replace(old, new)] for a one-character [old] *)
Definition replace_char (old : char) (new : str) (s : str) : str :=
  flat_map (fun c => if eqb_char c old then new else [c]) s.

(** [s.count(c)] for a one-character [c] *)
Definition count_char (c : char) (s : str) : nat :=
  List.length (filter (eqb_char c) s).

(** [s.split(c)[0]] for a one-character [c] *)
Fixpoint before_first (c : char) (s : str) : str :=
  match s with
  | [] => []
  | x :: s' => if eqb_char x c then [] else x :: before_first c s'
  end.

End Str.
Import Str.

Arguments utf8 s%_string.

(** ** Regular expressions

    The fragment of Python's [re] the program uses: character classes,
    concatenation, ordered alternation and greedy repetition. *)

Module Re.

Inductive regex : Type :=
| Eps
| Cls (p : char -> bool)
| Cat (r1 r2 : regex)
| Alt (r1 r2 : regex)
| Star (r : regex).

(** [r+] and the greedy [r?] *)
Definition Plus (r : regex) : regex := Cat r (Star r).
Definition Opt (r : regex) : regex := Alt r Eps.

Definition Chr (c : char) : regex := Cls (eqb_char c).

Fixpoint Lit (s : str) : regex :=
  match s with
  | [] => Eps
  | c :: s' => Cat (Chr c) (Lit s')
  end.

(** The texts a pattern matches, whatever the priorities *)
Inductive matches : regex -> str -> Prop :=
| M_Eps : matches Eps []
| M_Cls p c : p c = true -> matches (Cls p) [c]
| M_Cat r1 r2 s1 s2 :
    matches r1 s1 -> matches r2 s2 -> matches (Cat r1 r2) (s1 ++ s2)
| M_AltL r1 r2 s : matches r1 s -> matches (Alt r1 r2) s
| M_AltR r1 r2 s : matches r2 s -> matches (Alt r1 r2) s
| M_Star0 r : matches (Star r) []
| M_StarS r s1 s2 :
    s1 <> [] -> matches r s1 -> matches (Star r) s2 ->
    matches (Star r) (s1 ++ s2).

Section Matcher.
Variable A : Type.

(** Greedy repetition: one more round of [step] is tried before the
    continuation, and a round has to consume input. *)
Fixpoint star_loop (step : str -> (str -> option A) -> option A)
    (fuel : nat) (s : str) (k : str -> option A) : option A :=
  match fuel with
  | O => k s
  | S n =>
    match step s (fun s' =>
            if (List.length s' <? List.length s)%nat
            then star_loop step n s' k else None) with
    | Some x => Some x
    | None => k s
    end
  end.

(** Backtracking match of [r] at the start of [s]; [k] receives the rest
    of the text and may refuse, which makes the matcher try its next
    choice. *)
Fixpoint rmatch (r : regex) (s : str) (k : str -> option A) : option A :=
  match r with
  | Eps => k s
  | Cls p =>
    match s with
    | c :: s' => if p c then k s' else None
    | [] => None
    end
  | Cat r1 r2 => rmatch r1 s (fun s' => rmatch r2 s' k)
  | Alt r1 r2 =>
    match rmatch r1 s k with
    | Some x => Some x
    | None => rmatch r2 s k
    end
  | Star r1 => star_loop (rmatch r1) (S (List.length s)) s k
  end.
(** A step of the matcher that only looks at what its continuation
    returns *)
Definition respects_ext (step : str -> (str -> option A) -> option A) : Prop :=
  forall s k1 k2, (forall s', k1 s' = k2 s') -> step s k1 = step s k2.

(** A step of the matcher that succeeds only by splitting the text into a
    part [r] matches and a rest its continuation accepts *)
Definition sound_step (r : regex)
    (step : str -> (str -> option A) -> option A) : Prop :=
  forall s k x, step s k = Some x ->
    exists s1 s2, s = s1 ++ s2 /\ matches r s1 /\ k s2 = Some x.
End Matcher.
Arguments star_loop {A} step fuel s k.
Arguments rmatch {A} r s k.
Arguments respects_ext {A} step.
Arguments sound_step {A} r step.

(** No occurrence of the pattern starts in the text *)
Definition no_occurrence (r : regex) (s : str) : Prop :=
  forall pre m rest, s = pre ++ m ++ rest -> ~ matches r m.

(** The text left after the match of [r] at the start of [s] *)
Definition match_at (r : regex) (s : str) : option str :=
  rmatch r s (fun rest => Some rest).

Definition matched_prefix (s rest : str) : str :=
  firstn (List.length s - List.length rest) s.

(** [re.search(r, s)]: the leftmost match, as [(m.group(0), text after)] *)
Fixpoint search (r : regex) (s : str) : option (str * str) :=
  match match_at r s with
  | Some rest => Some (matched_prefix s rest, rest)
  | None =>
    match s with
    | [] => None
    | _ :: s' => search r s'
    end
  end.

Definition found (r : regex) (s : str) : bool :=
  match search r s with Some _ => true | None => false end.

(** [re.split(r, s)] for a separator [r] whose matches are not empty:
    [skip] characters of the current separator are still to be dropped and
    [cur] is the piece being read, reversed. *)
Fixpoint split_go (r : regex) (s : str) (skip : nat) (cur : str) : list str :=
  match s with
  | [] => [rev cur]
  | c :: s' =>
    match skip with
    | S n => split_go r s' n cur
    | O =>
      match match_at r s with
      | Some rest =>
        match (List.length s - List.length rest)%nat with
        | S n => rev cur :: split_go r s' n []
        | O => split_go r s' 0 (c :: cur)
        end
      | None => split_go r s' 0 (c :: cur)
      end
    end
  end.

Definition split (r : regex) (s : str) : list str := split_go r s 0 [].

(** [re.sub(r, repl, s)] for a pattern [r] whose matches are not empty *)
Fixpoint sub_go (r : regex) (repl : str) (s : str) (skip : nat) : str :=
  match s with
  | [] => []
  | c :: s' =>
    match skip with
    | S n => sub_go r repl s' n
    | O =>
      match match_at r s with
      | Some rest =>
        match (List.length s - List.length rest)%nat with
        | S n => repl ++ sub_go r repl s' n
        | O => c :: sub_go r repl s' 0
        end
      | None => c :: sub_go r repl s' 0
      end
    end
  end.

Definition sub (r : regex) (repl : str) (s : str) : str := sub_go r repl s 0.

End Re.
Import Re.

(** ** Python floats

    IEEE-754 binary64 with round-to-nearest-even, as [SpecFloat] defines it. *)

Module Float.

Definition prec : Z := 53.
Definition emax : Z := 1024.

Definition float := spec_float.

Definition nan : float := S754_nan.
Definition pinf : float := S754_infinity false.
Definition zero : float := S754_zero false.

Definition is_nan (x : float) : bool :=
  match x with S754_nan => true | _ => false end.

(** [math.isfinite] *)
Definition is_finite (x : float) : bool :=
  match x with S754_zero _ | S754_finite _ _ _ => true | _ => false end.

Definition mul : float -> float -> float := SFmul prec emax.
Definition div : float -> float -> float := SFdiv prec emax.
Definition add : float -> float -> float := SFadd prec emax.
Definition ltb : float -> float -> bool := SFltb.
Definition leb : float -> float -> bool := SFleb.

(** The float nearest to the integer [z] *)
Definition of_Z (z : Z) : float := binary_normalize prec emax z 0 false.

(** The float nearest to the fraction [n / d]: what [float] of a decimal
    text and the true division of two Python integers return. *)
Definition of_ratio (n : Z) (d : positive) : float :=
  match n with
  | Z0 => zero
  | Zpos p => div (S754_finite false p 0) (S754_finite false d 0)
  | Zneg p => div (S754_finite true p 0) (S754_finite false d 0)
  end.

Definition of_Q (q : Q) : float := of_ratio (Qnum q) (Qden q).

(** The exact value of a finite float, [float.as_integer_ratio] *)
Definition to_Q (x : float) : Q :=
  match x with
  | S754_finite s m e =>
    let n := if s then Zneg m else Zpos m in
    match e with
    | Z0 => Qmake n 1
    | Zpos k => Qmake (n * Z.pow_pos 2 k) 1
    | Zneg k => Qmake n (Pos.pow 2 k)
    end
  | _ => Qmake 0 1
  end.

(** [x >= 0] *)
Definition nonneg (x : float) : bool := leb zero x.

(** [statistics.mean] of a non-empty list of floats: the exact sum of the
    values as fractions, divided by the count and rounded once.  When a
    value is not finite the finite ones are ignored and the float sum of
    the others is divided by the count, which gives that sum back (it is an
    infinity or NaN and the count is positive). *)
Definition mean (xs : list float) : float :=
  if forallb is_finite xs
  then of_Q (Qdiv (fold_left Qplus (map to_Q xs) (Qmake 0 1))
                  (Qmake (Z.of_nat (List.length xs)) 1))
  else fold_left add (filter (fun x => negb (is_finite x)) xs) zero.

Definition is_digit (c : char) : bool := ((48 <=? c) && (c <=? 57))%N.

(** Leading ASCII digits of [s]: their value continuing [acc], how many
    there are, and the text after them. *)
Fixpoint read_digits (acc : N) (s : str) : N * nat * str :=
  match s with
  | c :: s' =>
    if is_digit c then
      let '(v, n, rest) := read_digits (acc * 10 + (c - 48))%N s' in
      (v, S n, rest)
    else (acc, O, s)
  | [] => (acc, O, [])
  end.

Fixpoint pow10 (n : nat) : positive :=
  match n with
  | O => 1
  | S n' => 10 * pow10 n'
  end.

(** [float(text)] for the texts the number pattern of the price parser can
    yield: ASCII digits, then optionally a dot and more digits.  [None]
    stands for [ValueError].  The other spellings [float] accepts (sign,
    exponent, [inf], [nan], underscores, blanks) all contain a character
    that is neither a digit nor a dot in such a position and are not
    modelled here. *)
Definition of_decimal (s : str) : option float :=
  let '(i, ni, rest) := read_digits 0 s in
  match ni, rest with
  | S _, [] => Some (of_ratio (Z.of_N i) 1)
  | S _, c :: rest' =>
    if eqb_char c 46%N then
      let '(v, nf, rest'') := read_digits i rest' in
      match rest'' with
      | [] => Some (of_ratio (Z.of_N v) (pow10 nf))
      | _ :: _ => None
      end
    else None
  | O, _ => None
  end.

End Float.
Import Float.

(** ** Python values and exceptions *)

(** What a cell read by [pd.read_csv(..., dtype=str)] or a function
    argument can be: a string, a float (a missing cell is the float NaN) or
    [None]. *)
Inductive pyval : Type :=
| VStr (s : str)
| VFloat (x : float)
| VNone.

Inductive exn : Type :=
| AttributeError.

Inductive result (A : Type) : Type :=
| Ret (a : A)
| Raise (e : exn).
Arguments Ret {A} a.
Arguments Raise {A} e.

Definition bind {A B : Type} (m : result A) (f : A -> result B) : result B :=
  match m with
  | Ret a => f a
  | Raise e => Raise e
  end.

Notation "x <- m ;; k" := (bind m (fun x => k))
  (at level 61, m at next level, right associativity).

(** ** The price parser *)

Inductive unit_word : Type :=
| Ty      (* billion *)
| Trieu.  (* million *)

Module Price.

(** The three markers of [if 'thỏa' in low or 'thoa' in low or
    'thỏa thuận' in low] *)
Definition marker_thoa_hook : str := utf8 "thỏa".
Definition marker_thoa : str := utf8 "thoa".
Definition marker_thoa_thuan : str := utf8 "thỏa thuận".

Definition has_negotiable_marker (low : str) : bool :=
  contains marker_thoa_hook low || contains marker_thoa low
  || contains marker_thoa_thuan low.

(** The characters kept by
    [re.sub(r"[^0-9,\.\-\styỷtyrtriệutrieuMHzKmBbKk]", ' ', raw)] *)
Definition kept (c : char) : bool :=
  is_digit c || mem_char c (utf8 ",.-") || is_space c
  || mem_char c (utf8 "tyỷtyrtriệutrieuMHzKmBbKk").

(** [r'ty|tỵ|tỷ'] *)
Definition ty_re : regex :=
  Alt (Lit (utf8 "ty")) (Alt (Lit [116; 7925]%N) (Lit (utf8 "tỷ"))).

(** ['triệu' in low or 'trieu' in low or 'triệu' in low]; the third
    literal of the source spells the vowel as U+00EA U+0323. *)
Definition has_trieu (low : str) : bool :=
  contains (utf8 "triệu") low || contains (utf8 "trieu") low
  || contains [116; 114; 105; 234; 803; 117]%N low.

(** [r'tri[eê]u|trieu'] *)
Definition trieu_re : regex :=
  Alt (Cat (Lit (utf8 "tri")) (Cat (Cls (fun c => mem_char c (utf8 "eê")))
                                   (Lit (utf8 "u"))))
      (Lit (utf8 "trieu")).

(** [r'\s*-\s*|\sto\s|\s–\s'] *)
Definition range_sep : regex :=
  Alt (Cat (Star (Cls is_space)) (Cat (Chr 45%N) (Star (Cls is_space))))
      (Alt (Cat (Cls is_space) (Cat (Lit (utf8 "to")) (Cls is_space)))
           (Cat (Cls is_space) (Cat (Chr 8211%N) (Cls is_space)))).

(** [r'[0-9]+[\.,]?[0-9]*'] *)
Definition number_re : regex :=
  Cat (Plus (Cls is_digit))
      (Cat (Opt (Cls (fun c => mem_char c (utf8 ".,")))) (Star (Cls is_digit))).

Definition comma : char := 44%N.
Definition dot : char := 46%N.

(** A lone comma is the decimal separator, other commas are dropped:
    [if num_s.count(',') == 1 and num_s.count('.') == 0] *)
Definition decimal_text (num_s : str) : str :=
  if (count_char comma num_s =? 1)%nat && (count_char dot num_s =? 0)%nat
  then replace_char comma [dot] num_s
  else replace_char comma [] num_s.

(** The body of the loop over the pieces of a range: the number a piece
    contributes, if any. *)
Definition number_of_part (p : str) : option float :=
  let p := strip p in
  match p with
  | [] => None
  | _ :: _ =>
    match search number_re p with
    | None => None
    | Some (num_s, _) =>
      of_decimal (decimal_text num_s)
    end
  end.

Fixpoint extract_nums (parts : list str) : list float :=
  match parts with
  | [] => []
  | p :: ps =>
    match number_of_part p with
    | Some x => x :: extract_nums ps
    | None => extract_nums ps
    end
  end.

(** Unit detection on the lowercased text, before the numbers are read *)
Definition detect_unit (low : str) : option unit_word :=
  if found ty_re low then Some Ty
  else if has_trieu low then Some Trieu
  else None.

(** [' t ' in (' ' + low + ' ')] *)
Definition has_standalone_t (low : str) : bool :=
  contains (utf8 " t ") (utf8 " " ++ low ++ utf8 " ").

(** [any(x < 100 for x in nums) and ('ty' in low or ' t ' in ...)] *)
Definition t_heuristic_applies (low : str) (nums : list float) : bool :=
  existsb (fun x => ltb x (of_Z 100)) nums
  && (contains (utf8 "ty") low || has_standalone_t low).

(** The branch [if unit is None:] *)
Definition infer_unit (low : str) (nums : list float) : unit_word :=
  if found trieu_re low then Trieu
  else if found ty_re low then Ty
  else if existsb (fun x => ltb (of_Z 1000) x) nums then Trieu
  else if t_heuristic_applies low nums then Ty
  else if existsb (fun x => leb x (of_Z 1000)) nums then Ty
  else Trieu.

(** A unit word is found by the first detection or by the second scan. *)
Definition unit_word_detected (low : str) : bool :=
  found ty_re low || has_trieu low || found trieu_re low.

Definition final_unit (low : str) (nums : list float) : unit_word :=
  match detect_unit low with
  | Some w => w
  | None => infer_unit low nums
  end.

(** The value returned for a unit and the mean of the numbers *)
Definition to_million (w : unit_word) (val : float) : float :=
  match w with
  | Ty => mul val (of_Z 1000)
  | Trieu => val
  end.

Section Parser.
(** [str.lower]: the Unicode case mapping, a table of the Python runtime *)
Variable lower : str -> str.

(** The text the numbers are read from *)
Definition normalized (raw : str) : str :=
  let raw := replace_char 8211%N (utf8 "-") raw in
  let raw := replace_char 8212%N (utf8 "-") raw in
  let raw := replace_char 160%N (utf8 " ") raw in
  strip (sub (Cls (fun c => negb (kept c))) (utf8 " ") raw).

Definition numbers_of (raw : str) : list float :=
  extract_nums (split range_sep (normalized raw)).

Definition parse_price_to_million (s : pyval) : result (option float) :=
  match s with
  | VStr s =>
    let raw := strip s in
    match raw with
    | [] => Ret None
    | _ :: _ =>
      let low := lower raw in
      if has_negotiable_marker low then
        (* [raw.pd.dropna(...)]: a [str] has no attribute [pd]; the
           [return raw] under it is never reached *)
        Raise AttributeError
      else
        let nums := numbers_of raw in
        match nums with
        | [] => Ret None
        | _ :: _ => Ret (Some (to_million (final_unit low nums) (mean nums)))
        end
    end
  | _ => Ret None
  end.
End Parser.

End Price.

(** ** A lowercase table for the Vietnamese alphabet

    [lower_latin] agrees with [str.lower] on Basic Latin, Latin-1
    Supplement, Latin Extended-A, the letters O-horn and U-horn, and Latin
    Extended Additional; other code points are left as they are.  It is the
    instance used to run the parser on concrete texts. *)

Module Lower.
Local Open Scope N_scope.

Definition lower_char (c : char) : str :=
  if (65 <=? c) && (c <=? 90) then [c + 32]
  else if (192 <=? c) && (c <=? 222) && negb (c =? 215) then [c + 32]
  else if (c =? 304) then [105; 775]
  else if (c =? 376) then [255]
  else if ((256 <=? c) && (c <=? 303) || (306 <=? c) && (c <=? 311)
           || (330 <=? c) && (c <=? 375)) && N.even c then [c + 1]
  else if ((313 <=? c) && (c <=? 328) || (377 <=? c) && (c <=? 382))
          && N.odd c then [c + 1]
  else if (c =? 416) || (c =? 431) then [c + 1]
  else if (c =? 7838) then [223]
  else if ((7680 <=? c) && (c <=? 7829) || (7840 <=? c) && (c <=? 7935))
          && N.even c then [c + 1]
  else [c].

Definition lower_latin (s : str) : str := flat_map lower_char s.

End Lower.
Import Lower.

(** ** Location and district *)

Module District.

Definition newline : char := 10%N.

(** [clean_location] *)
Definition clean_location (loc : pyval) : option str :=
  match loc with
  | VStr loc =>
    let s := strip (replace_char newline (utf8 " ") loc) in
    let s := sub (Plus (Cls is_space)) (utf8 " ") s in
    Some (strip_chars (utf8 " ,") s)
  | _ => None
  end.

(** The keywords of the pattern, as the source spells them: the second
    one writes the vowel of the first as U+00E2 U+0323. *)
Definition kw_quan : str := utf8 "Quận".
Definition kw_quan_decomposed : str := [81; 117; 226; 803; 110]%N.
Definition kw_huyen : str := utf8 "Huyện".
Definition kw_huyen_plain : str := utf8 "Huyen".
Definition kw_thi_xa : str := utf8 "Thị xã".
Definition kw_thi_xa_plain : str := utf8 "Thi xa".
Definition kw_thi_xa_capital : str := utf8 "Thị Xã".

(** [[^,\n]] *)
Definition name_char (c : char) : bool :=
  negb (eqb_char c Price.comma || eqb_char c newline).

(** [\s+([^,\n]+)] *)
Definition tail_re : regex :=
  Cat (Plus (Cls is_space)) (Plus (Cls name_char)).

Section Splitter.
(** The lowercase of one character ([re.I] compares characters through
    it), a table of the Python runtime *)
Variable tolower : char -> char.

(** A literal character [c] of a pattern compiled with [re.I] accepts the
    text character [x] when [x] lowercases to the lowercase of [c], or, for
    the letter i, to the dotless i. *)
Definition ci_char (c x : char) : bool :=
  eqb_char (tolower x) (tolower c)
  || eqb_char (tolower c) 105%N && eqb_char (tolower x) 305%N.

Definition ChrI (c : char) : regex := Cls (ci_char c).

Fixpoint LitI (s : str) : regex :=
  match s with
  | [] => Eps
  | c :: s' => Cat (ChrI c) (LitI s')
  end.

(** [Qu?n]: Q, an optional u, n *)
Definition qun_re : regex :=
  Cat (ChrI 81%N) (Cat (Opt (ChrI 117%N)) (ChrI 110%N)).

(** [(Quận|Quận|Qu?n|Huyện|Huyen|Thị xã|Thi xa|Thị xã|Thị Xã)] *)
Definition keyword_re : regex :=
  Alt (LitI kw_quan)
 (Alt (LitI kw_quan_decomposed)
 (Alt qun_re
 (Alt (LitI kw_huyen)
 (Alt (LitI kw_huyen_plain)
 (Alt (LitI kw_thi_xa)
 (Alt (LitI kw_thi_xa_plain)
 (Alt (LitI kw_thi_xa)
      (LitI kw_thi_xa_capital)))))))).

(** [(...)\s+([^,\n]+)] *)
Definition district_re : regex := Cat keyword_re tail_re.

(** [extract_district] *)
Definition extract_district (loc : pyval) : option str :=
  match loc with
  | VStr s =>
    match search district_re s with
    | Some (m, _) => Some (strip m)
    | None =>
      if mem_char Price.comma s
      then Some (strip (before_first Price.comma s))
      else Some (strip s)
    end
  | _ => None
  end.
End Splitter.

(** The lowercase of one character on the Vietnamese alphabet; U+0130
    lowercases to i here. *)
Definition tolower_latin (c : char) : char :=
  if eqb_char c 304%N then 105%N
  else match lower_char c with
       | [x] => x
       | _ => c
       end.

End District.

(** [remove_emojis]: the pattern is the class of the code points from
    U+10000 to U+10FFFF and the replacement is empty. *)
Definition remove_emojis (text : str) : str :=
  sub (Cls (fun c => (65536 <=? c) && (c <=? 1114111))%N) [] text.

(** ** The table pass ([main]) *)

Module Cleaner.

(** A cell of the input table: the file is read with [dtype=str], so a cell
    is a string or missing ([None] here, the float NaN in pandas). *)
Definition cell := option str.

Definition value_of (c : cell) : pyval :=
  match c with
  | Some s => VStr s
  | None => VFloat nan
  end.

Definition eqb_cell (a b : cell) : bool :=
  match a, b with
  | Some x, Some y => eqb_str x y
  | None, None => true
  | _, _ => false
  end.

(** A row of the input file *)
Record row : Type := {
  url : cell;
  title : cell;
  price_raw : cell;
  price_vnd : cell;
  location : cell;
  area_m2 : cell;
  snippet : cell
}.

(** A row of the output files, columns in the order of [out_cols]; in a
    numeric column NaN is the absent value. *)
Record out_row : Type := {
  o_title : str;
  o_url : cell;
  o_price_raw_orig : cell;
  o_price_million_final : float;
  o_price_billion : float;
  o_price_vnd_original : float;
  o_location : option str;
  o_district : option str;
  o_area_m2 : float;
  o_snippet : str
}.

Definition absent (x : float) : bool := is_nan x.

(** [df.drop_duplicates(subset=['url'])]: the first row of each url is
    kept; [seen] holds the urls met so far. *)
Fixpoint drop_duplicates_go (seen : list cell) (rows : list row) : list row :=
  match rows with
  | [] => []
  | r :: rs =>
    if existsb (eqb_cell (url r)) seen then drop_duplicates_go seen rs
    else r :: drop_duplicates_go (url r :: seen) rs
  end.

Definition drop_duplicates (rows : list row) : list row :=
  drop_duplicates_go [] rows.

(** The first row of the table with a given url *)
Definition first_with_url (u : cell) (rows : list row) : option row :=
  find (fun r => eqb_cell (url r) u) rows.

(** A column of parser results stored by pandas: [None] becomes NaN *)
Definition to_column (x : option float) : float :=
  match x with
  | Some v => v
  | None => nan
  end.

(** [lambda x: None if x is None or math.isnan(x) else x/1000.0] *)
Definition price_billion_of (price_million : float) : float :=
  if is_nan price_million then nan else div price_million (of_Z 1000).

(** [(df['area_m2'] <= 0) | (df['area_m2'] > 2000)] set to NA *)
Definition valid_area (a : float) : float :=
  if leb a zero || ltb (of_Z 2000) a then nan else a.

(** Insertion of a float in a sorted list *)
Fixpoint insert_sorted (x : float) (xs : list float) : list float :=
  match xs with
  | [] => [x]
  | y :: ys => if leb x y then x :: xs else y :: insert_sorted x ys
  end.

Definition sort (xs : list float) : list float :=
  fold_right insert_sorted [] xs.

(** [Series.median()]: NaN is skipped; the middle value of the sorted
    present values, or the mean of the two middle ones; NaN when no value
    is present. *)
Definition median (xs : list float) : float :=
  let present := sort (filter (fun x => negb (is_nan x)) xs) in
  let n := List.length present in
  match n with
  | O => nan
  | S _ =>
    if Nat.even n
    then div (add (nth (n / 2 - 1) present nan) (nth (n / 2) present nan))
             (of_Z 2)
    else nth (n / 2) present nan
  end.

(** [fillna(area_med)] on the area column *)
Definition impute (area_med : float) (o : out_row) : out_row :=
  {| o_title := o_title o;
     o_url := o_url o;
     o_price_raw_orig := o_price_raw_orig o;
     o_price_million_final := o_price_million_final o;
     o_price_billion := o_price_billion o;
     o_price_vnd_original := o_price_vnd_original o;
     o_location := o_location o;
     o_district := o_district o;
     o_area_m2 := if is_nan (o_area_m2 o) then area_med else o_area_m2 o;
     o_snippet := o_snippet o |}.

Fixpoint mapM {A B : Type} (f : A -> result B) (xs : list A)
    : result (list B) :=
  match xs with
  | [] => Ret []
  | x :: xs' =>
    y <- f x ;;
    ys <- mapM f xs' ;;
    Ret (y :: ys)
  end.

Section Pass.
(** Tables and parsers of the Python runtime and of pandas:
    [str.lower]; the lowercase of one character; [float] of a text, with
    [None] for [ValueError]; the text-to-number conversion of
    [pd.to_numeric], with [None] where [errors='coerce'] gives NaN. *)
Variable lower : str -> str.
Variable tolower : char -> char.
Variable float_of_text : str -> option float.
Variable numeric_of_text : str -> option float.

(** [safe_float] applied to a cell *)
Definition safe_float (c : cell) : option float :=
  match c with
  | Some s => float_of_text s
  | None => Some nan
  end.

(** [pd.to_numeric(..., errors='coerce')] applied to a cell *)
Definition to_numeric (c : cell) : float :=
  match c with
  | Some s =>
    match numeric_of_text s with
    | Some x => x
    | None => nan
    end
  | None => nan
  end.

(** [.astype(str)] of a cell.  A string is kept.  A missing cell becomes
    the text "nan" with the object columns of pandas before version 3;
    from version 3 on the column read with [dtype=str] keeps the cell
    missing, and the [.strip()] of line 151 then raises on it.  The
    repository pins no version: the properties that read the title of a
    row take it to be present, where the versions agree. *)
Definition astype_str (c : cell) : str :=
  match c with
  | Some s => s
  | None => utf8 "nan"
  end.

(** The column assignments of [main] on one row, in the order of the
    source. *)
Definition clean_row (r : row) : result out_row :=
  let title' := strip (remove_emojis (astype_str (title r))) in
  price_million <- Price.parse_price_to_million lower (value_of (price_raw r)) ;;
  let price_million := to_column price_million in
  let price_billion := price_billion_of price_million in
  let price_vnd_original := to_column (safe_float (price_vnd r)) in
  let price_million_final :=
    if is_nan price_million && negb (is_nan price_vnd_original)
    then price_vnd_original else price_million in
  let area := valid_area (to_numeric (area_m2 r)) in
  let location' := District.clean_location (value_of (location r)) in
  let district :=
    District.extract_district tolower
      (match location' with Some s => VStr s | None => VNone end) in
  let snippet' :=
    strip (match snippet r with Some s => s | None => [] end) in
  Ret {| o_title := title';
         o_url := url r;
         o_price_raw_orig := price_raw r;
         o_price_million_final := price_million_final;
         o_price_billion := price_billion;
         o_price_vnd_original := price_vnd_original;
         o_location := location';
         o_district := district;
         o_area_m2 := area;
         o_snippet := snippet' |}.

(** [main]: the cleaned table and the imputed table *)
Definition main (rows : list row) : result (list out_row * list out_row) :=
  let df := drop_duplicates rows in
  out <- mapM clean_row df ;;
  let area_med := median (map o_area_m2 out) in
  Ret (out, map (impute area_med) out).
End Pass.

End Cleaner.

(** ** Sample tables *)

Module Examples.
Import Cleaner.

Definition listing_a : row :=
  {| url := Some (utf8 "https://homedy.com/a");
     title := Some (utf8 "Nhà phố");
     price_raw := Some (utf8 "12,5 Tỷ");
     price_vnd := Some (utf8 "125");
     location := Some (utf8 "Quận Ba Đình, Hà Nội");
     area_m2 := Some (utf8 "80");
     snippet := None |}.

(** A later row with the url of [listing_a] *)
Definition listing_a_again : row :=
  {| url := Some (utf8 "https://homedy.com/a");
     title := Some (utf8 "Nhà phố (tin cũ)");
     price_raw := Some (utf8 "58 Triệu");
     price_vnd := Some (utf8 "58");
     location := Some (utf8 "Số 10, phố ABC, Hà Nội");
     area_m2 := Some (utf8 "3000");
     snippet := Some (utf8 " tin cũ ") |}.

(** A row without price text and without area *)
Definition listing_b : row :=
  {| url := Some (utf8 "https://homedy.com/b");
     title := None;
     price_raw := None;
     price_vnd := Some (utf8 "4500");
     location := Some (utf8 "Huyện Gia Lâm");
     area_m2 := None;
     snippet := None |}.

Definition listing_c : row :=
  {| url := Some (utf8 "https://homedy.com/c");
     title := Some (utf8 "Căn hộ");
     price_raw := Some (utf8 "5 - 5,2 Tỷ");
     price_vnd := None;
     location := None;
     area_m2 := Some (utf8 "65.5");
     snippet := None |}.

Definition table : list row :=
  [listing_a; listing_a_again; listing_b; listing_c].

(** A table in which no row has an area *)
Definition table_without_area : list row := [listing_b].

(** [main] with the lowercase tables of the Vietnamese alphabet and
    decimal texts for the numeric cells *)
Definition run (rows : list row) : result (list out_row * list out_row) :=
  main lower_latin District.tolower_latin of_decimal of_decimal rows.

Definition table_out : list out_row :=
  Eval vm_compute in
    match run table with Ret (out, _) => out | Raise _ => [] end.

Definition table_imputed : list out_row :=
  Eval vm_compute in
    match run table with Ret (_, imputed) => imputed | Raise _ => [] end.

Definition table_without_area_out : list out_row :=
  Eval vm_compute in
    match run table_without_area with Ret (out, _) => out | Raise _ => [] end.

(** A row whose price is to be negotiated *)
Definition listing_negotiable : row :=
  {| url := Some (utf8 "https://homedy.com/n");
     title := Some (utf8 "Đất nền");
     price_raw := Some (utf8 "Thỏa thuận");
     price_vnd := None;
     location := Some (utf8 "Huyện Đông Anh, Hà Nội");
     area_m2 := Some (utf8 "120");
     snippet := Some (utf8 "Giá thỏa thuận") |}.

(** A row with every cell filled, an emoji in its title and blanks around
    its texts *)
Definition listing_d : row :=
  {| url := Some (utf8 "https://homedy.com/d");
     title := Some (utf8 " Biệt thự 🏡 ven hồ ");
     price_raw := Some (utf8 "850 Triệu");
     price_vnd := Some (utf8 "850");
     location := Some (utf8 " Thị xã  Sơn Tây , Hà Nội, ");
     area_m2 := Some (utf8 "240");
     snippet := Some (utf8 "  sổ đỏ chính chủ ") |}.

(** A table in which every row has a title *)
Definition table_titled : list row :=
  [listing_a; listing_a_again; listing_d; listing_c].

(** The same with a negotiable price in a kept row *)
Definition table_with_marker : list row :=
  [listing_a; listing_a_again; listing_negotiable; listing_c].

(** The same with the negotiable price in a dropped duplicate only *)
Definition listing_a_negotiable : row :=
  {| url := url listing_a;
     title := title listing_a_again;
     price_raw := price_raw listing_negotiable;
     price_vnd := None;
     location := None;
     area_m2 := None;
     snippet := None |}.

Definition table_with_dropped_marker : list row :=
  [listing_a; listing_a_negotiable; listing_d; listing_c].

Definition table_titled_out : list out_row :=
  Eval vm_compute in
    match run table_titled with Ret (out, _) => out | Raise _ => [] end.

Definition table_titled_imputed : list out_row :=
  Eval vm_compute in
    match run table_titled with Ret (_, imputed) => imputed | Raise _ => [] end.

End Examples.

(** ** Vocabulary of the specification *)

Module Spec.

(** "absent or a non-negative finite number" *)
Definition absent_or_nonneg_finite (r : option float) : bool :=
  match r with
  | None => true
  | Some x => nonneg x && is_finite x
  end.

(** "absent or a non-negative number", infinity included *)
Definition absent_or_nonneg (r : option float) : bool :=
  match r with
  | None => true
  | Some x => nonneg x
  end.

(** "strictly within (0, 2000]" *)
Definition area_in_range (a : float) : bool :=
  ltb zero a && leb a (of_Z 2000).

(** What the cleaned area of a row is, from the text of its area cell and
    the text-to-number conversion: absent when the cell is missing, does
    not parse, or holds a number [<= 0] or [> 2000]; the parsed number
    otherwise. *)
Definition area_rule (numeric_of_text : str -> option float)
    (c : Cleaner.cell) (a : float) : Prop :=
  match c with
  | None => Cleaner.absent a = true
  | Some t =>
    match numeric_of_text t with
    | None => Cleaner.absent a = true
    | Some x =>
      if leb x zero || ltb (of_Z 2000) x then Cleaner.absent a = true
      else a = x
    end
  end.

(** The administrative keywords the pattern of [extract_district] spells
    out, without its alternative [Qu?n] *)
Definition keywords : list str :=
  [District.kw_quan; District.kw_quan_decomposed; District.kw_huyen;
   District.kw_huyen_plain; District.kw_thi_xa; District.kw_thi_xa_plain;
   District.kw_thi_xa_capital].

Definition same_ignoring_case (tolower : char -> char) (k w : str) : Prop :=
  Forall2 (fun c x => District.ci_char tolower c x = true) k w.

Definition is_keyword (tolower : char -> char) (w : str) : Prop :=
  exists k, In k keywords /\ same_ignoring_case tolower k w.

(** A phrase: a keyword, white space, and a name without comma or line
    break *)
Definition is_phrase (tolower : char -> char) (m : str) : Prop :=
  exists kw ws name,
    m = kw ++ ws ++ name
    /\ is_keyword tolower kw
    /\ ws <> [] /\ forallb is_space ws = true
    /\ name <> [] /\ forallb District.name_char name = true.

(** The text after a phrase is empty or starts with a comma or a line
    break. *)
Definition at_boundary (rest : str) : Prop :=
  match rest with
  | [] => True
  | c :: _ => District.name_char c = false
  end.

(** The alternative [Qu?n] of the pattern followed by the rest of the
    pattern: the texts it matches are left out of the amended claim. *)
Definition qun_phrase_re (tolower : char -> char) : regex :=
  Cat (District.qun_re tolower) District.tail_re.

(** [extract_district] as the claim words it: the keywords are Quận,
    Huyện and Thị xã, the name runs up to the next comma or line break, and
    the matched phrase is returned as it is. *)
Definition claimed_phrase_re (tolower : char -> char) : regex :=
  Cat (Alt (District.LitI tolower District.kw_quan)
      (Alt (District.LitI tolower District.kw_huyen)
           (District.LitI tolower District.kw_thi_xa)))
      (Plus (Cls District.name_char)).

Definition extract_district_claimed (tolower : char -> char) (s : str)
    : option str :=
  match search (claimed_phrase_re tolower) s with
  | Some (m, _) => Some m
  | None =>
    if mem_char Price.comma s
    then Some (strip (before_first Price.comma s))
    else Some (strip s)
  end.

(** A price text of 310 digits: 1 followed by 309 zeros *)
Definition price_of_310_digits : str := utf8 "1" ++ repeat 48%N 309.

(** A price text of 306 digits and the word of the billion *)
Definition price_of_306_nines_ty : str := repeat 57%N 306 ++ utf8 " ty".

End Spec.

(** ** Shapes of texts *)

Module Shape.

(** The characters a pattern can consume: the union of its classes *)
Fixpoint alphabet (r : regex) (c : char) : bool :=
  match r with
  | Eps => false
  | Cls p => p c
  | Cat r1 r2 => alphabet r1 c || alphabet r2 c
  | Alt r1 r2 => alphabet r1 c || alphabet r2 c
  | Star r1 => alphabet r1 c
  end.

(** [a] occurs in [s] as a contiguous piece *)
Definition piece_of (a s : str) : Prop :=
  exists pre post, s = pre ++ a ++ post.

(** Neither the first nor the last character of [s] is in the class [p]. *)
Definition ends_free (p : char -> bool) (s : str) : bool :=
  match s with [] => true | c :: _ => negb (p c) end
  && match rev s with [] => true | c :: _ => negb (p c) end.

(** Runs of the class [p] replaced by [repl]; [in_run] tells that the
    previous character was in the class. *)
Fixpoint collapse_go (p : char -> bool) (repl : str) (in_run : bool)
    (s : str) : str :=
  match s with
  | [] => []
  | c :: s' =>
    if p c then
      if in_run then collapse_go p repl true s'
      else repl ++ collapse_go p repl true s'
    else c :: collapse_go p repl false s'
  end.

(** The only white space of [s] is the space U+0020, and no two spaces
    are adjacent. *)
Fixpoint single_spaced (s : str) : bool :=
  match s with
  | [] => true
  | c :: s' =>
    (negb (is_space c)
     || eqb_char c 32%N
        && match s' with [] => true | d :: _ => negb (is_space d) end)
    && single_spaced s'
  end.

(** The characters of [s.strip(' ,')] *)
Definition space_or_comma (c : char) : bool := mem_char c (utf8 " ,").

(** The ten ASCII digits *)
Definition ascii_digits : str := utf8 "0123456789".

(** [\s*-\s*], the first alternative of the range separator *)
Definition hyphen_re : regex :=
  Cat (Star (Cls is_space)) (Cat (Chr 45%N) (Star (Cls is_space))).

(** The code points from U+10000 to U+10FFFF *)
Definition is_astral (c : char) : bool :=
  ((65536 <=? c) && (c <=? 1114111))%N.

End Shape.

(** ** Magnitude of floats *)

Module Magnitude.

(** [x] is a zero, or a finite float whose absolute value is below
    [2^K] *)
Definition below_pow2 (K : Z) (x : float) : bool :=
  match x with
  | S754_zero _ => true
  | S754_finite _ m e => ((e <=? 971) && (Zpos (digits2_pos m) + e <=? K))%Z
  | _ => false
  end.

End Magnitude.

(** * Properties *)

(** ** Floats: sign of rounded results *)

Module FloatFacts.

Lemma iter_pos_invariant (A : Type) (P : A -> Prop) (f : A -> A) :
  (forall x, P x -> P (f x)) ->
  forall n x, P x -> P (iter_pos f n x).
Proof.
  intros Hf. induction n as [n IH | n IH | ]; intros x Hx; simpl.
  - apply IH, IH, Hf, Hx.
  - apply IH, IH, Hx.
  - apply Hf, Hx.
Qed.

Lemma shr_1_nonneg mrs : (0 <= shr_m mrs)%Z -> (0 <= shr_m (shr_1 mrs))%Z.
Proof.
  destruct mrs as [m r s]. simpl. intros Hm.
  destruct m as [ | [p | p | ] | p]; simpl; lia.
Qed.

Lemma shr_nonneg mrs e n :
  (0 <= shr_m mrs)%Z -> (0 <= shr_m (fst (shr mrs e n)))%Z.
Proof.
  intros Hm. destruct n as [ | p | p]; simpl; trivial.
  apply (iter_pos_invariant _ (fun x => (0 <= shr_m x)%Z)); trivial.
  apply shr_1_nonneg.
Qed.

Lemma shr_record_of_loc_m m l : shr_m (shr_record_of_loc m l) = m.
Proof. destruct l as [ | []]; reflexivity. Qed.

Lemma shr_fexp_nonneg m e l :
  (0 <= m)%Z -> (0 <= shr_m (fst (shr_fexp prec emax m e l)))%Z.
Proof.
  intros Hm. unfold shr_fexp. apply shr_nonneg.
  rewrite shr_record_of_loc_m. exact Hm.
Qed.

Lemma round_nearest_even_nonneg m l :
  (0 <= m)%Z -> (0 <= round_nearest_even m l)%Z.
Proof.
  intros Hm. destruct l as [ | []]; simpl; try lia.
  destruct (Z.even m); lia.
Qed.

(** A float is non-negative when it is a zero, or positive and finite or
    infinite. *)
Lemma nonneg_cases x :
  nonneg x = true <->
  (exists s, x = S754_zero s) \/ x = pinf \/ exists m e, x = S754_finite false m e.
Proof.
  unfold nonneg, leb, SFleb, zero, pinf. split.
  - destruct x as [s | [] | | [] m e]; simpl; try discriminate; eauto.
  - intros [[s ->] | [-> | (m & e & ->)]]; reflexivity.
Qed.

Lemma nonneg_not_nan x : nonneg x = true -> is_nan x = false.
Proof. destruct x; trivial. discriminate. Qed.

Lemma binary_round_aux_nonneg m e l :
  (0 <= m)%Z -> nonneg (binary_round_aux prec emax false m e l) = true.
Proof.
  intros Hm. unfold binary_round_aux.
  pose proof (shr_fexp_nonneg m e l Hm) as H1.
  destruct (shr_fexp prec emax m e l) as [mrs' e']. simpl in H1.
  pose proof (shr_fexp_nonneg _ e' loc_Exact
                (round_nearest_even_nonneg _ (loc_of_shr_record mrs') H1)) as H2.
  destruct (shr_fexp prec emax _ e' loc_Exact) as [mrs'' e'']. simpl in H2.
  destruct (shr_m mrs'') as [ | p | p]; try lia; try reflexivity.
  destruct (Z.leb e'' (emax - prec)); reflexivity.
Qed.

Lemma div_eucl_quot_nonneg a b q r :
  (0 <= a)%Z -> (0 < b)%Z -> Z.div_eucl a b = (q, r) -> (0 <= q)%Z.
Proof.
  intros Ha Hb E.
  assert (q = (a / b)%Z) as -> by (unfold Z.div; rewrite E; reflexivity).
  apply Z.div_pos; lia.
Qed.

Lemma div_finite_nonneg mx ex my ey :
  nonneg (div (S754_finite false mx ex) (S754_finite false my ey)) = true.
Proof.
  unfold div, SFdiv, SFdiv_core_binary.
  set (m' := match _ with Zpos _ => _ | Z0 => _ | Zneg _ => _ end).
  assert (0 <= m')%Z as Hm'.
  { subst m'. destruct (_ - _ - _)%Z; try lia.
    rewrite Z.shiftl_mul_pow2 by lia. apply Z.mul_nonneg_nonneg; lia. }
  destruct (Z.div_eucl m' (Zpos my)) as [q r] eqn:E.
  apply binary_round_aux_nonneg.
  eapply div_eucl_quot_nonneg; eauto; lia.
Qed.

Lemma of_ratio_nonneg n d : (0 <= n)%Z -> nonneg (of_ratio n d) = true.
Proof.
  intros Hn. destruct n as [ | p | p]; try lia; simpl.
  - reflexivity.
  - apply div_finite_nonneg.
Qed.

Lemma mul_nonneg x y :
  nonneg x = true -> y = of_Z 1000 -> nonneg (mul x y) = true.
Proof.
  intros Hx ->. apply nonneg_cases in Hx.
  destruct Hx as [[s ->] | [-> | (m & e & ->)]].
  - destruct s; reflexivity.
  - reflexivity.
  - unfold mul, of_Z. simpl. apply binary_round_aux_nonneg. lia.
Qed.

Lemma Qnum_sum_nonneg qs acc :
  (0 <= Qnum acc)%Z -> Forall (fun q => (0 <= Qnum q)%Z) qs ->
  (0 <= Qnum (fold_left Qplus qs acc))%Z.
Proof.
  intros Hacc Hqs. revert acc Hacc.
  induction Hqs as [ | q qs Hq _ IH]; intros acc Hacc; simpl; trivial.
  apply IH. simpl. nia.
Qed.

Lemma to_Q_nonneg x : nonneg x = true -> (0 <= Qnum (to_Q x))%Z.
Proof.
  intros H. apply nonneg_cases in H.
  destruct H as [[s ->] | [-> | (m & e & ->)]]; try (simpl; lia).
  destruct e as [ | k | k]; cbn [to_Q Qnum]; lia.
Qed.

Lemma sum_infinite_nonneg xs acc :
  nonneg acc = true -> Forall (fun x => x = pinf) xs ->
  nonneg (fold_left add xs acc) = true.
Proof.
  intros Hacc Hxs. revert acc Hacc.
  induction Hxs as [ | x xs -> _ IH]; intros acc Hacc; simpl; trivial.
  apply IH. apply nonneg_cases in Hacc.
  destruct Hacc as [[s ->] | [-> | (m & e & ->)]]; reflexivity.
Qed.

Lemma mean_nonneg xs :
  xs <> [] -> Forall (fun x => nonneg x = true) xs -> nonneg (mean xs) = true.
Proof.
  intros Hne Hxs. unfold mean. destruct (forallb is_finite xs).
  - apply of_ratio_nonneg.
    destruct xs as [ | x xs']; [congruence | ].
    set (total := fold_left Qplus _ _).
    assert (0 <= Qnum total)%Z as Ht.
    { apply Qnum_sum_nonneg; [simpl; lia | ].
      apply Forall_forall. intros q Hq. apply in_map_iff in Hq.
      destruct Hq as (a & <- & Ha). apply to_Q_nonneg.
      rewrite Forall_forall in Hxs. auto. }
    simpl List.length. unfold Qdiv, Qinv. simpl Qnum at 2.
    rewrite Nat2Z.inj_succ. unfold Z.succ.
    destruct (Z.of_nat (List.length xs') + 1)%Z eqn:E; try lia.
    simpl. nia.
  - apply sum_infinite_nonneg; [reflexivity | ].
    apply Forall_forall. intros x Hx. apply filter_In in Hx.
    destruct Hx as [Hin Hnf].
    rewrite Forall_forall in Hxs. specialize (Hxs x Hin).
    apply nonneg_cases in Hxs.
    destruct Hxs as [[s ->] | [-> | (m & e & ->)]];
      try discriminate; reflexivity.
Qed.

(** The order of floats is total away from NaN. *)
Lemma compare_antisym x y :
  SFcompare y x = option_map CompOpp (SFcompare x y).
Proof.
  destruct x as [sx | sx | | sx mx ex], y as [sy | sy | | sy my ey];
    simpl; try reflexivity;
    try (destruct sx; reflexivity); try (destruct sy; reflexivity);
    try (destruct sx, sy; reflexivity).
  destruct sx, sy; simpl; try reflexivity;
    rewrite (Z.compare_antisym ex ey);
    destruct (ex ?= ey)%Z; simpl; try reflexivity;
    rewrite (Pos.compare_cont_antisym mx my Eq); simpl;
    try rewrite CompOpp_involutive; reflexivity.
Qed.

Lemma ltb_false_leb x y :
  is_nan x = false -> is_nan y = false -> ltb y x = false -> leb x y = true.
Proof.
  unfold ltb, leb, SFltb, SFleb. intros Hx Hy.
  rewrite (compare_antisym y x).
  destruct (SFcompare y x) as [[ | | ] | ] eqn:E; simpl; trivial; try discriminate.
  destruct x, y; simpl in *; discriminate.
Qed.

Lemma leb_false_ltb x y :
  is_nan x = false -> is_nan y = false -> leb x y = false -> ltb y x = true.
Proof.
  unfold ltb, leb, SFltb, SFleb. intros Hx Hy.
  rewrite (compare_antisym x y).
  destruct (SFcompare x y) as [[ | | ] | ] eqn:E; simpl; trivial; try discriminate.
  destruct x, y; simpl in *; discriminate.
Qed.

Lemma binary_round_aux_not_nan s m e l :
  (0 <= m)%Z -> is_nan (binary_round_aux prec emax s m e l) = false.
Proof.
  intros Hm. unfold binary_round_aux.
  pose proof (shr_fexp_nonneg m e l Hm) as H1.
  destruct (shr_fexp prec emax m e l) as [mrs' e']. simpl in H1.
  pose proof (shr_fexp_nonneg _ e' loc_Exact
                (round_nearest_even_nonneg _ (loc_of_shr_record mrs') H1)) as H2.
  destruct (shr_fexp prec emax _ e' loc_Exact) as [mrs'' e'']. simpl in H2.
  destruct (shr_m mrs'') as [ | p | p]; try lia; try reflexivity.
  destruct (Z.leb e'' (emax - prec)); reflexivity.
Qed.

(** Dividing a number by a positive finite float gives a number. *)
Lemma div_by_finite_not_nan x my ey :
  is_nan x = false -> is_nan (div x (S754_finite false my ey)) = false.
Proof.
  destruct x as [s | s | | s mx ex]; try discriminate; intros _;
    try reflexivity.
  unfold div, SFdiv, SFdiv_core_binary.
  set (m' := match _ with Zpos _ => _ | Z0 => _ | Zneg _ => _ end).
  assert (0 <= m')%Z as Hm'.
  { subst m'. destruct (_ - _ - _)%Z; try lia.
    rewrite Z.shiftl_mul_pow2 by lia. apply Z.mul_nonneg_nonneg; lia. }
  destruct (Z.div_eucl m' (Zpos my)) as [q r] eqn:E.
  apply binary_round_aux_not_nan.
  eapply div_eucl_quot_nonneg; eauto; lia.
Qed.

Lemma add_finite_nonneg m1 e1 m2 e2 :
  nonneg (add (S754_finite false m1 e1) (S754_finite false m2 e2)) = true.
Proof.
  unfold add, SFadd. cbn [cond_Zopp Z.add].
  unfold binary_normalize, binary_round.
  destruct (shl_align _ _ _) as [mz ez].
  apply binary_round_aux_nonneg. lia.
Qed.

Lemma half_nonneg x : nonneg x = true -> nonneg (div x (of_Z 2)) = true.
Proof.
  intros H. apply nonneg_cases in H.
  destruct H as [[s ->] | [-> | (m & e & ->)]].
  - destruct s; reflexivity.
  - reflexivity.
  - change (of_Z 2) with (S754_finite false 4503599627370496 (-51)).
    apply div_finite_nonneg.
Qed.

End FloatFacts.

(** ** The matcher against the texts a pattern matches *)

Module ReFacts.

Section Engine.
Variable A : Type.

Lemma star_loop_ext (step : str -> (str -> option A) -> option A) fuel :
  respects_ext step -> respects_ext (star_loop step fuel).
Proof.
  intros Hstep. induction fuel as [ | n IH]; intros s k1 k2 Hk; simpl.
  - apply Hk.
  - rewrite Hk.
    rewrite (Hstep s _ (fun s' =>
               if (List.length s' <? List.length s)%nat
               then star_loop step n s' k2 else None)); trivial.
    intros s'. destruct (_ <? _)%nat; trivial. apply IH, Hk.
Qed.

Lemma rmatch_ext r : respects_ext (A:=A) (rmatch r).
Proof.
  induction r as [ | p | r1 IH1 r2 IH2 | r1 IH1 r2 IH2 | r1 IH1];
    intros s k1 k2 Hk; cbn [rmatch].
  - apply Hk.
  - destruct s as [ | c s']; trivial. destruct (p c); trivial.
  - apply IH1. intros s'. apply IH2, Hk.
  - rewrite (IH1 s k1 k2 Hk), (IH2 s k1 k2 Hk). reflexivity.
  - apply star_loop_ext; trivial.
Qed.

(** Any fuel above the length of the text gives the same repetition. *)
Lemma star_loop_fuel (step : str -> (str -> option A) -> option A) :
  respects_ext step ->
  forall f1 f2 s k,
    (List.length s < f1)%nat -> (List.length s < f2)%nat ->
    star_loop step f1 s k = star_loop step f2 s k.
Proof.
  intros Hstep. induction f1 as [ | n1 IH]; intros f2 s k H1 H2; [lia | ].
  destruct f2 as [ | n2]; [lia | ]. simpl.
  rewrite (Hstep s _ (fun s' =>
             if (List.length s' <? List.length s)%nat
             then star_loop step n2 s' k else None)); trivial.
  intros s'. destruct (Nat.ltb_spec (List.length s') (List.length s)); trivial.
  apply IH; lia.
Qed.

Lemma star_loop_sound r (step : str -> (str -> option A) -> option A) fuel :
  sound_step r step -> sound_step (Star r) (star_loop step fuel).
Proof.
  intros Hstep. induction fuel as [ | n IH]; intros s k x; simpl.
  - intros H. exists [], s. repeat split; trivial. constructor.
  - destruct (step s _) as [y | ] eqn:E.
    + intros [= ->]. apply Hstep in E.
      destruct E as (a & b & -> & Ha & Hb).
      destruct (Nat.ltb_spec (List.length b) (List.length (a ++ b)));
        [ | discriminate].
      apply IH in Hb. destruct Hb as (c & d & -> & Hc & Hd).
      exists (a ++ c), d. rewrite app_assoc. repeat split; trivial.
      constructor; trivial.
      intros ->. simpl in *. lia.
    + intros H. exists [], s. repeat split; trivial. constructor.
Qed.

(** Soundness: a successful run splits the text into a part the pattern
    matches and a rest the continuation accepts. *)
Lemma rmatch_sound r : sound_step (A:=A) r (rmatch r).
Proof.
  induction r as [ | p | r1 IH1 r2 IH2 | r1 IH1 r2 IH2 | r1 IH1];
    intros s k x; cbn [rmatch].
  - intros H. exists [], s. repeat split; trivial. constructor.
  - destruct s as [ | c s']; [discriminate | ].
    destruct (p c) eqn:E; [ | discriminate].
    intros H. exists [c], s'. repeat split; trivial. constructor; trivial.
  - intros H. apply IH1 in H. destruct H as (a & b & -> & Ha & Hb).
    apply IH2 in Hb. destruct Hb as (c & d & -> & Hc & Hd).
    exists (a ++ c), d. rewrite app_assoc. repeat split; trivial.
    constructor; trivial.
  - destruct (rmatch r1 s k) as [y | ] eqn:E.
    + intros [= ->]. apply IH1 in E. destruct E as (a & b & -> & Ha & Hb).
      exists a, b. repeat split; trivial. apply M_AltL, Ha.
    + intros H. apply IH2 in H. destruct H as (a & b & -> & Ha & Hb).
      exists a, b. repeat split; trivial. apply M_AltR, Ha.
  - apply star_loop_sound, IH1.
Qed.

(** Completeness: when the pattern matches a prefix and the continuation
    accepts the rest, the run succeeds (possibly on another choice). *)
Lemma rmatch_complete r s1 :
  matches r s1 ->
  forall s2 (k : str -> option A) x,
    k s2 = Some x -> exists y, rmatch r (s1 ++ s2) k = Some y.
Proof.
  induction 1 as [ | p c Hc | r1 r2 a b _ IH1 _ IH2 | r1 r2 a _ IH
                 | r1 r2 a _ IH | r | r a b Hne _ IH1 _ IH2];
    intros s2 k x Hk; simpl.
  - eauto.
  - rewrite Hc. eauto.
  - rewrite <- app_assoc.
    destruct (IH2 s2 k x Hk) as (y & Hy).
    apply (IH1 (b ++ s2) (fun s' => rmatch r2 s' k) y Hy).
  - destruct (IH s2 k x Hk) as (y & ->). eauto.
  - destruct (rmatch r1 (a ++ s2) k); eauto.
  - destruct (rmatch r s2 _); eauto.
  - destruct (IH2 s2 k x Hk) as (y & Hy). cbn [rmatch] in Hy.
    rewrite <- app_assoc.
    destruct (IH1 (b ++ s2)
                (fun s' =>
                   if (List.length s' <? List.length (a ++ b ++ s2))%nat
                   then star_loop (rmatch r) (List.length (a ++ b ++ s2)) s' k
                   else None) y) as (z & ->); eauto.
    destruct (Nat.ltb_spec (List.length (b ++ s2))
                (List.length (a ++ b ++ s2))) as [Hlt | Hge].
    + rewrite <- Hy. apply star_loop_fuel; trivial; try lia.
      apply rmatch_ext.
    + destruct a; [congruence | ]. simpl in Hge.
      rewrite ?length_app in Hge. lia.
Qed.

End Engine.

(** *** Leftmost search *)

Lemma matched_prefix_app m rest : matched_prefix (m ++ rest) rest = m.
Proof.
  unfold matched_prefix. rewrite length_app.
  replace (List.length m + List.length rest - List.length rest)%nat
    with (List.length m) by lia.
  rewrite firstn_app, firstn_all, Nat.sub_diag. simpl. apply app_nil_r.
Qed.

Lemma match_at_sound r s rest :
  match_at r s = Some rest -> exists m, s = m ++ rest /\ matches r m.
Proof.
  unfold match_at. intros H. apply rmatch_sound in H.
  destruct H as (m & b & -> & Hm & [= ->]). eauto.
Qed.

Lemma match_at_complete r m rest :
  matches r m -> exists rest', match_at r (m ++ rest) = Some rest'.
Proof.
  intros H. unfold match_at.
  apply (rmatch_complete _ _ _ H rest (fun x => Some x) rest eq_refl).
Qed.

Lemma match_at_none r s :
  match_at r s = None -> forall m rest, s = m ++ rest -> ~ matches r m.
Proof.
  intros H m rest -> Hm.
  destruct (match_at_complete _ _ rest Hm) as (rest' & E). congruence.
Qed.

Lemma search_none r s : search r s = None -> no_occurrence r s.
Proof.
  induction s as [ | c s IH]; simpl.
  - destruct (match_at r []) eqn:E; [discriminate | ]. intros _.
    intros pre m rest Hs.
    symmetry in Hs. apply app_eq_nil in Hs. destruct Hs as [-> Hs].
    apply app_eq_nil in Hs. destruct Hs as [-> ->].
    apply (match_at_none _ _ E [] []). reflexivity.
  - destruct (match_at r (c :: s)) eqn:E; [discriminate | ].
    intros H pre m rest Hs. destruct pre as [ | c' pre]; simpl in Hs.
    + apply (match_at_none _ _ E m rest). exact Hs.
    + injection Hs as -> ->. apply (IH H pre m rest). reflexivity.
Qed.

(** The match found by [search]: it is matched by the pattern and no
    occurrence starts before it. *)
Lemma search_some r s m rest :
  search r s = Some (m, rest) ->
  exists pre,
    s = pre ++ m ++ rest /\ matches r m
    /\ match_at r (m ++ rest) = Some rest
    /\ forall pre' m' rest',
         s = pre' ++ m' ++ rest' -> matches r m' ->
         (List.length pre <= List.length pre')%nat.
Proof.
  revert m rest. induction s as [ | c s IH]; intros m rest; simpl.
  - destruct (match_at r []) as [rest0 | ] eqn:E; [ | discriminate].
    intros [= <- <-]. destruct (match_at_sound _ _ _ E) as (m0 & Hs & Hm0).
    symmetry in Hs. apply app_eq_nil in Hs. destruct Hs as [-> ->].
    exists []. simpl. repeat split; trivial. intros; lia.
  - destruct (match_at r (c :: s)) as [rest0 | ] eqn:E.
    + intros [= <- <-]. destruct (match_at_sound _ _ _ E) as (m0 & Hs & Hm0).
      rewrite Hs, matched_prefix_app. exists []. simpl.
      repeat split; trivial; [congruence | intros; lia].
    + intros H. destruct (IH m rest H) as (pre & -> & Hm & Hat & Hleft).
      exists (c :: pre). repeat split; trivial.
      intros pre' m' rest' Hs Hm'. destruct pre' as [ | c' pre']; simpl in Hs.
      * exfalso. apply (match_at_none _ _ E m' rest'); trivial.
      * injection Hs as _ Hs. simpl. apply le_n_S.
        apply (Hleft pre' m' rest'); trivial.
Qed.

Lemma found_false r s : found r s = false -> no_occurrence r s.
Proof.
  unfold found. destruct (search r s) eqn:E; [discriminate | ].
  intros _. apply search_none, E.
Qed.

(** *** Classes and their repetitions *)

Lemma matches_star_cls p s :
  matches (Star (Cls p)) s -> forallb p s = true.
Proof.
  intros H. remember (Star (Cls p)) as r eqn:Er.
  induction H as [ | | | | | r | r a b Hne Ha _ Hb IH]; try discriminate.
  - reflexivity.
  - injection Er as ->. inversion Ha as [ | q c Hc | | | | | ]; subst.
    simpl. rewrite Hc. apply IH. reflexivity.
Qed.

Lemma forallb_matches_star_cls p s :
  forallb p s = true -> matches (Star (Cls p)) s.
Proof.
  induction s as [ | c s IH]; simpl; intros H.
  - constructor.
  - apply andb_true_iff in H. destruct H as [Hc Hs].
    apply (M_StarS (Cls p) [c] s); [discriminate | now constructor | auto].
Qed.

Lemma matches_plus_cls p s :
  matches (Plus (Cls p)) s <-> s <> [] /\ forallb p s = true.
Proof.
  unfold Plus. split.
  - intros H. inversion H as [ | | r1 r2 a b Ha Hb | | | | ]; subst.
    inversion Ha as [ | q c Hc | | | | | ]; subst.
    split; [discriminate | ]. simpl. rewrite Hc.
    apply matches_star_cls, Hb.
  - intros [Hne H]. destruct s as [ | c s]; [congruence | ].
    simpl in H. apply andb_true_iff in H. destruct H as [Hc Hs].
    apply (M_Cat (Cls p) (Star (Cls p)) [c] s); [now constructor | ].
    apply forallb_matches_star_cls, Hs.
Qed.

Lemma matches_alt r1 r2 s :
  matches (Alt r1 r2) s -> matches r1 s \/ matches r2 s.
Proof.
  intros H. inversion H as [ | | | ? ? ? Hl | ? ? ? Hr | | ]; subst; auto.
Qed.

Lemma rmatch_cat (A : Type) r1 r2 s (k : str -> option A) :
  rmatch (Cat r1 r2) s k = rmatch r1 s (fun s' => rmatch r2 s' k).
Proof. reflexivity. Qed.

Lemma rmatch_cls (A : Type) p s (k : str -> option A) :
  rmatch (Cls p) s k
  = match s with
    | c :: s' => if p c then k s' else None
    | [] => None
    end.
Proof. reflexivity. Qed.

(** A repetition of a class, run to the end, leaves a text that does not
    start in the class. *)
Lemma star_cls_rest p fuel s rest :
  (List.length s < fuel)%nat ->
  star_loop (rmatch (Cls p)) fuel s (fun x => Some x) = Some rest ->
  match rest with [] => True | c :: _ => p c = false end.
Proof.
  revert s. induction fuel as [ | n IH]; intros s Hlt; [lia | ].
  cbn [star_loop]. rewrite rmatch_cls. destruct s as [ | c s'].
  - intros [= <-]. exact I.
  - destruct (p c) eqn:Hc.
    + simpl in Hlt.
      destruct (Nat.ltb_spec (List.length s') (List.length (c :: s')));
        [ | simpl in *; lia].
      destruct (star_loop (rmatch (Cls p)) n s' (fun x => Some x))
        as [r' | ] eqn:E.
      * intros [= <-]. apply (IH s'); [lia | exact E].
      * exfalso. clear - E. destruct n; cbn [star_loop] in E;
          [discriminate | ].
        destruct (rmatch (Cls p) s' _); discriminate.
    + intros [= <-]. exact Hc.
Qed.

End ReFacts.

(** ** The price parser *)

Module PriceFacts.
Import FloatFacts ReFacts Price Spec.

Lemma of_decimal_nonneg s x : of_decimal s = Some x -> nonneg x = true.
Proof.
  unfold of_decimal.
  destruct (read_digits 0 s) as [[i ni] rest].
  destruct ni as [ | ni]; [discriminate | ].
  destruct rest as [ | c rest'].
  - intros [= <-]. apply of_ratio_nonneg. lia.
  - destruct (eqb_char c 46%N); [ | discriminate].
    destruct (read_digits i rest') as [[v nf] rest''].
    destruct rest''; [ | discriminate].
    intros [= <-]. apply of_ratio_nonneg. lia.
Qed.

Lemma number_of_part_nonneg p x :
  number_of_part p = Some x -> nonneg x = true.
Proof.
  unfold number_of_part.
  destruct (strip p); [discriminate | ].
  destruct (search number_re _) as [[num_s rest] | ]; [ | discriminate].
  apply of_decimal_nonneg.
Qed.

Lemma extract_nums_nonneg parts :
  Forall (fun x => nonneg x = true) (extract_nums parts).
Proof.
  induction parts as [ | p ps IH]; simpl; [constructor | ].
  destruct (number_of_part p) as [x | ] eqn:E; trivial.
  constructor; trivial. eapply number_of_part_nonneg; eauto.
Qed.

Lemma to_million_nonneg w x :
  nonneg x = true -> nonneg (to_million w x) = true.
Proof.
  intros H. destruct w; simpl; trivial.
  apply mul_nonneg; trivial.
Qed.

(** *** [float] never fails on the text of a number

    The [except] branch of the loop is dead: the text matched by the number
    pattern, once its comma is handled, is always a decimal. *)

Lemma read_digits_app ds :
  forallb is_digit ds = true ->
  forall acc rest,
    match rest with [] => True | c :: _ => is_digit c = false end ->
    exists v, read_digits acc (ds ++ rest) = (v, List.length ds, rest).
Proof.
  induction ds as [ | d ds IH]; simpl; intros Hd acc rest Hrest.
  - destruct rest as [ | c rest']; simpl.
    + exists acc. reflexivity.
    + rewrite Hrest. exists acc. reflexivity.
  - apply andb_true_iff in Hd. destruct Hd as [H1 H2]. rewrite H1.
    destruct (IH H2 (acc * 10 + (d - 48))%N rest Hrest) as (v & ->).
    exists v. reflexivity.
Qed.

Lemma of_decimal_digits ds :
  ds <> [] -> forallb is_digit ds = true -> exists x, of_decimal ds = Some x.
Proof.
  intros Hne Hd. unfold of_decimal.
  destruct (read_digits_app ds Hd 0%N [] I) as (v & E).
  rewrite app_nil_r in E. rewrite E.
  destruct ds; [congruence | ]. simpl. eauto.
Qed.

Lemma of_decimal_dotted ds ds2 :
  ds <> [] -> forallb is_digit ds = true -> forallb is_digit ds2 = true ->
  exists x, of_decimal (ds ++ dot :: ds2) = Some x.
Proof.
  intros Hne Hd Hd2. unfold of_decimal.
  destruct (read_digits_app ds Hd 0%N (dot :: ds2) eq_refl) as (v & ->).
  destruct ds as [ | d ds']; [congruence | ]. simpl List.length. cbv iota.
  change (eqb_char dot 46%N) with true. cbv iota.
  destruct (read_digits_app ds2 Hd2 v [] I) as (v2 & E).
  rewrite app_nil_r in E. rewrite E. eauto.
Qed.

Lemma digit_not_separator c :
  is_digit c = true -> eqb_char c comma = false /\ eqb_char c dot = false.
Proof.
  unfold is_digit, eqb_char, comma, dot. intros H.
  apply andb_true_iff in H. destruct H as [H1 H2].
  apply N.leb_le in H1. split; apply N.eqb_neq; lia.
Qed.

Lemma count_char_app c a b :
  count_char c (a ++ b) = (count_char c a + count_char c b)%nat.
Proof. unfold count_char. rewrite filter_app, length_app. reflexivity. Qed.

Lemma replace_char_app old new a b :
  replace_char old new (a ++ b)
  = replace_char old new a ++ replace_char old new b.
Proof. unfold replace_char. apply flat_map_app. Qed.

Lemma digits_count ds c :
  forallb is_digit ds = true -> (c = comma \/ c = dot) -> count_char c ds = O.
Proof.
  intros Hd Hc. induction ds as [ | d ds IH]; trivial.
  simpl in Hd. apply andb_true_iff in Hd. destruct Hd as [H1 H2].
  unfold count_char in *. simpl.
  destruct (digit_not_separator d H1) as [E1 E2].
  assert (eqb_char c d = false) as ->.
  { unfold eqb_char in *. rewrite N.eqb_sym. destruct Hc; subst; trivial. }
  apply IH, H2.
Qed.

Lemma digits_replace ds new :
  forallb is_digit ds = true -> replace_char comma new ds = ds.
Proof.
  intros Hd. induction ds as [ | d ds IH]; trivial.
  simpl in Hd. apply andb_true_iff in Hd. destruct Hd as [H1 H2].
  unfold replace_char in *. simpl.
  destruct (digit_not_separator d H1) as [-> _]. simpl.
  rewrite (IH H2). reflexivity.
Qed.

(** The texts of the number pattern: digits, at most one separator, and
    digits again. *)
Lemma matches_number num_s :
  matches number_re num_s ->
  exists ds sep ds2,
    num_s = ds ++ sep ++ ds2
    /\ ds <> [] /\ forallb is_digit ds = true
    /\ (sep = [] \/ sep = [comma] \/ sep = [dot])
    /\ forallb is_digit ds2 = true.
Proof.
  unfold number_re. intros H.
  inversion H as [ | | r1 r2 ds t Hds Ht | | | | ]; subst.
  inversion Ht as [ | | r1 r2 sep ds2 Hsep Hds2 | | | | ]; subst.
  apply matches_plus_cls in Hds. destruct Hds as [Hne Hd].
  apply matches_star_cls in Hds2.
  exists ds, sep, ds2. repeat split; trivial.
  apply matches_alt in Hsep. destruct Hsep as [Hc | He].
  - inversion Hc as [ | q c Hmem | | | | | ]; subst.
    unfold mem_char in Hmem. simpl in Hmem.
    apply orb_true_iff in Hmem. destruct Hmem as [E | Hmem].
    + apply N.eqb_eq in E. subst. right. right. reflexivity.
    + apply orb_true_iff in Hmem. destruct Hmem as [E | E]; [ | discriminate].
      apply N.eqb_eq in E. subst. right. left. reflexivity.
  - inversion He. left. reflexivity.
Qed.

Lemma number_text_parses num_s :
  matches number_re num_s -> exists x, of_decimal (decimal_text num_s) = Some x.
Proof.
  intros H. apply matches_number in H.
  destruct H as (ds & sep & ds2 & -> & Hne & Hd & Hsep & Hd2).
  unfold decimal_text.
  rewrite !count_char_app, !replace_char_app.
  rewrite !(digits_count ds), !(digits_count ds2) by auto.
  rewrite !(digits_replace ds), !(digits_replace ds2) by auto.
  destruct Hsep as [-> | [-> | ->]]; simpl.
  - apply of_decimal_digits.
    + destruct ds; [congruence | discriminate].
    + rewrite forallb_app, Hd, Hd2. reflexivity.
  - apply of_decimal_dotted; trivial.
  - apply of_decimal_dotted; trivial.
Qed.

(** A piece contributes a number exactly when it contains a digit run. *)
Lemma number_of_part_found p num_s rest :
  strip p <> [] ->
  search number_re (strip p) = Some (num_s, rest) ->
  exists x, number_of_part p = Some x.
Proof.
  intros Hne Hs. unfold number_of_part. rewrite Hs.
  destruct (strip p) as [ | c q]; [congruence | ].
  apply search_some in Hs. destruct Hs as (pre & _ & Hm & _).
  apply number_text_parses, Hm.
Qed.

(** What the parser does on a string, by cases *)
Lemma parse_price_cases lower s :
  parse_price_to_million lower (VStr s) =
    if eqb_str (strip s) [] then Ret None
    else if has_negotiable_marker (lower (strip s)) then Raise AttributeError
    else match numbers_of (strip s) with
         | [] => Ret None
         | _ :: _ =>
           Ret (Some (to_million
                        (final_unit (lower (strip s)) (numbers_of (strip s)))
                        (mean (numbers_of (strip s)))))
         end.
Proof.
  unfold parse_price_to_million.
  destruct (strip s) as [ | c raw]; reflexivity.
Qed.

(** C1: an input whose lowercased text contains a negotiable marker makes
    the parser raise AttributeError (the attribute [pd] of a string is
    read); it does not return the absent value. *)
Theorem negotiable_marker_raises lower s :
  strip s <> [] ->
  has_negotiable_marker (lower (strip s)) = true ->
  parse_price_to_million lower (VStr s) = Raise AttributeError.
Proof.
  intros Hne Hm. rewrite parse_price_cases, Hm.
  destruct (strip s); [congruence | reflexivity].
Qed.

Lemma negotiable_marker_raises_witness :
  strip (utf8 "Thỏa thuận") <> []
  /\ has_negotiable_marker (lower_latin (strip (utf8 "Thỏa thuận"))) = true
  /\ parse_price_to_million lower_latin (VStr (utf8 "Thỏa thuận"))
     = Raise AttributeError.
Proof.
  split; [discriminate | ].
  split; [reflexivity | ].
  apply negotiable_marker_raises; [discriminate | reflexivity].
Defined.

(** C2: the parser raises exactly on the strings that are not blank and
    carry a negotiable marker; on every other input it returns. *)
Theorem parser_raises_iff_marker lower v :
  (exists e, parse_price_to_million lower v = Raise e)
  <-> (exists s, v = VStr s /\ strip s <> []
                 /\ has_negotiable_marker (lower (strip s)) = true).
Proof.
  split.
  - intros [e He]. destruct v as [s | x | ]; try discriminate.
    exists s. split; trivial.
    rewrite parse_price_cases in He.
    destruct (strip s) as [ | c raw] eqn:Es; [discriminate | ].
    split; [discriminate | ]. simpl in He.
    destruct (has_negotiable_marker (lower (c :: raw))); trivial.
    destruct (numbers_of (c :: raw)); discriminate.
  - intros (s & -> & Hne & Hm). exists AttributeError.
    apply negotiable_marker_raises; trivial.
Qed.

(** The unaccented spelling of the marker inside a longer text *)
Lemma unaccented_marker_raises :
  parse_price_to_million lower_latin (VStr (utf8 "Giá thoa thuan"))
  = Raise AttributeError.
Proof. vm_compute. reflexivity. Qed.

(** C3, as stated, fails: a text of 310 digits is parsed to the float
    infinity. *)
Lemma price_of_310_digits_is_infinite :
  parse_price_to_million lower_latin (VStr price_of_310_digits)
    = Ret (Some pinf)
  /\ absent_or_nonneg_finite (Some pinf) = false.
Proof. split; vm_compute; reflexivity. Qed.

(** C4: the parser returns the example values of the specification:
    58.0 for "58 Triệu", 12500.0 for "12,5 Tỷ", and for the range
    "5 - 5,2 Tỷ" the mean of 5 and 5.2 times 1000, which is 5100.0. *)
Theorem spec_price_examples :
  parse_price_to_million lower_latin (VStr (utf8 "58 Triệu"))
    = Ret (Some (of_Z 58))
  /\ parse_price_to_million lower_latin (VStr (utf8 "12,5 Tỷ"))
     = Ret (Some (of_Z 12500))
  /\ parse_price_to_million lower_latin (VStr (utf8 "5 - 5,2 Tỷ"))
     = Ret (Some (of_Z 5100))
  /\ numbers_of (utf8 "5 - 5,2 Tỷ") = [of_Z 5; of_ratio 52 10]
  /\ mul (mean [of_Z 5; of_ratio 52 10]) (of_Z 1000) = of_Z 5100.
Proof. repeat split; vm_compute; reflexivity. Qed.

Lemma none_above_all_below c xs :
  is_nan c = false ->
  Forall (fun x => nonneg x = true) xs ->
  existsb (fun x => ltb c x) xs = false ->
  forallb (fun x => leb x c) xs = true.
Proof.
  intros Hc Hxs. induction Hxs as [ | x xs Hx _ IH]; simpl; trivial.
  intros H. apply orb_false_iff in H. destruct H as [H1 H2].
  rewrite IH by trivial. rewrite ltb_false_leb; trivial.
  apply nonneg_not_nan, Hx.
Qed.

Lemma forallb_existsb_nonempty (A : Type) (f : A -> bool) xs :
  xs <> [] -> forallb f xs = true -> existsb f xs = true.
Proof.
  destruct xs as [ | x xs]; [congruence | ]. simpl.
  intros _ H. apply andb_true_iff in H. destruct H as [-> _]. reflexivity.
Qed.

(** With no unit word in the text, the inferred unit is the billion
    exactly when every number is at most 1000. *)
Lemma infer_unit_rule low nums :
  unit_word_detected low = false ->
  nums <> [] ->
  Forall (fun x => nonneg x = true) nums ->
  infer_unit low nums
  = if forallb (fun x => leb x (of_Z 1000)) nums then Ty else Trieu.
Proof.
  unfold unit_word_detected, infer_unit. intros Hu Hne Hnn.
  apply orb_false_iff in Hu. destruct Hu as [Hu ->].
  apply orb_false_iff in Hu. destruct Hu as [-> _].
  destruct (existsb (fun x => ltb (of_Z 1000) x) nums) eqn:Ebig.
  - apply existsb_exists in Ebig. destruct Ebig as (x & Hin & Hx).
    destruct (forallb _ nums) eqn:Eall; trivial.
    rewrite forallb_forall in Eall. specialize (Eall x Hin).
    unfold ltb, leb, SFltb, SFleb in *.
    rewrite (compare_antisym (of_Z 1000) x) in Eall.
    destruct (SFcompare (of_Z 1000) x) as [[ | | ] | ];
      simpl in Eall; discriminate.
  - rewrite (none_above_all_below (of_Z 1000)); trivial.
    destruct (t_heuristic_applies low nums); trivial.
    rewrite forallb_existsb_nonempty; trivial.
    apply none_above_all_below; trivial.
Qed.

(** C5: on a text without negotiable marker, where no unit word is
    detected, at least one number is extracted, no number exceeds 1000 and
    the standalone t/ty heuristic does not apply, the parser takes the
    billion as unit exactly when all the numbers are at most 1000, and the
    million otherwise. *)
Theorem default_unit_rule lower s :
  strip s <> [] ->
  has_negotiable_marker (lower (strip s)) = false ->
  unit_word_detected (lower (strip s)) = false ->
  numbers_of (strip s) <> [] ->
  existsb (fun x => ltb (of_Z 1000) x) (numbers_of (strip s)) = false ->
  t_heuristic_applies (lower (strip s)) (numbers_of (strip s)) = false ->
  final_unit (lower (strip s)) (numbers_of (strip s))
  = (if forallb (fun x => leb x (of_Z 1000)) (numbers_of (strip s))
     then Ty else Trieu)
  /\ parse_price_to_million lower (VStr s)
     = Ret (Some (to_million
                    (if forallb (fun x => leb x (of_Z 1000))
                                (numbers_of (strip s))
                     then Ty else Trieu)
                    (mean (numbers_of (strip s))))).
Proof.
  intros Hne Hm Hu Hnums Hbig Ht.
  assert (final_unit (lower (strip s)) (numbers_of (strip s))
          = if forallb (fun x => leb x (of_Z 1000)) (numbers_of (strip s))
            then Ty else Trieu) as Hunit.
  { unfold final_unit, detect_unit.
    pose proof Hu as Hu'. unfold unit_word_detected in Hu'.
    apply orb_false_iff in Hu'. destruct Hu' as [Hu' _].
    apply orb_false_iff in Hu'. destruct Hu' as [-> ->].
    apply infer_unit_rule; trivial. apply extract_nums_nonneg. }
  split; trivial.
  rewrite parse_price_cases, Hm, <- Hunit.
  destruct (strip s) as [ | c raw]; [congruence | ]. simpl eqb_str. cbv iota.
  destruct (numbers_of (c :: raw)); [congruence | reflexivity].
Qed.

Lemma default_unit_rule_witness :
  strip (utf8 "500") <> []
  /\ has_negotiable_marker (lower_latin (strip (utf8 "500"))) = false
  /\ unit_word_detected (lower_latin (strip (utf8 "500"))) = false
  /\ numbers_of (strip (utf8 "500")) <> []
  /\ existsb (fun x => ltb (of_Z 1000) x) (numbers_of (strip (utf8 "500")))
     = false
  /\ t_heuristic_applies (lower_latin (strip (utf8 "500")))
       (numbers_of (strip (utf8 "500"))) = false
  /\ final_unit (lower_latin (strip (utf8 "500")))
       (numbers_of (strip (utf8 "500"))) = Ty
  /\ parse_price_to_million lower_latin (VStr (utf8 "500"))
     = Ret (Some (of_Z 500000)).
Proof.
  assert (strip (utf8 "500") <> []) as H1 by discriminate.
  assert (has_negotiable_marker (lower_latin (strip (utf8 "500"))) = false)
    as H2 by reflexivity.
  assert (unit_word_detected (lower_latin (strip (utf8 "500"))) = false)
    as H3 by reflexivity.
  assert (numbers_of (strip (utf8 "500")) <> []) as H4
    by (vm_compute; discriminate).
  assert (existsb (fun x => ltb (of_Z 1000) x)
            (numbers_of (strip (utf8 "500"))) = false) as H5
    by (vm_compute; reflexivity).
  assert (t_heuristic_applies (lower_latin (strip (utf8 "500")))
            (numbers_of (strip (utf8 "500"))) = false) as H6
    by (vm_compute; reflexivity).
  destruct (@default_unit_rule lower_latin (utf8 "500") H1 H2 H3 H4 H5 H6)
    as [Hunit Hparse].
  repeat (split; trivial).
Defined.

End PriceFacts.

(** ** The district splitter *)

Module DistrictFacts.
Import ReFacts District Spec.

Lemma matches_tail t :
  matches tail_re t <->
  exists ws name,
    t = ws ++ name /\ ws <> [] /\ forallb is_space ws = true
    /\ name <> [] /\ forallb name_char name = true.
Proof.
  unfold tail_re. split.
  - intros H. inversion H as [ | | r1 r2 ws name Hws Hname | | | | ]; subst.
    apply matches_plus_cls in Hws, Hname.
    exists ws, name. tauto.
  - intros (ws & name & -> & H1 & H2 & H3 & H4).
    constructor; apply matches_plus_cls; auto.
Qed.

Lemma match_at_district_boundary tolower s rest :
  match_at (district_re tolower) s = Some rest -> at_boundary rest.
Proof.
  unfold match_at, district_re, tail_re. intros H.
  rewrite rmatch_cat in H.
  destruct (rmatch_sound _ _ _ _ _ H) as (kw & s1 & _ & _ & H1).
  rewrite rmatch_cat in H1.
  destruct (rmatch_sound _ _ _ _ _ H1) as (ws & s2 & _ & _ & H2).
  unfold Plus in H2. rewrite rmatch_cat, rmatch_cls in H2.
  destruct s2 as [ | c s2']; [discriminate | ].
  destruct (name_char c); [ | discriminate].
  unfold at_boundary.
  apply (star_cls_rest name_char (S (List.length s2')) s2'); [lia | exact H2].
Qed.

Section IgnoringCase.
Variable tolower : char -> char.

Lemma matches_LitI k w :
  matches (LitI tolower k) w <-> same_ignoring_case tolower k w.
Proof.
  unfold same_ignoring_case. revert w.
  induction k as [ | c k IH]; intros w; simpl; split.
  - intros H. inversion H. constructor.
  - intros H. inversion H. constructor.
  - intros H. inversion H as [ | | r1 r2 a b Ha Hb | | | | ]; subst.
    inversion Ha as [ | q x Hx | | | | | ]; subst.
    simpl. constructor; trivial. apply IH, Hb.
  - intros H. inversion H as [ | c' x k' w' Hx Hk]; subst.
    apply (M_Cat (ChrI tolower c) (LitI tolower k) [x] w').
    + constructor. exact Hx.
    + apply IH, Hk.
Qed.

Lemma keyword_matches kw :
  is_keyword tolower kw -> matches (keyword_re tolower) kw.
Proof.
  intros (k & Hin & Hk). apply matches_LitI in Hk. unfold keyword_re.
  simpl in Hin.
  destruct Hin as [<- | [<- | [<- | [<- | [<- | [<- | [<- | []]]]]]]].
  - apply M_AltL, Hk.
  - apply M_AltR, M_AltL, Hk.
  - apply M_AltR, M_AltR, M_AltR, M_AltL, Hk.
  - apply M_AltR, M_AltR, M_AltR, M_AltR, M_AltL, Hk.
  - apply M_AltR, M_AltR, M_AltR, M_AltR, M_AltR, M_AltL, Hk.
  - apply M_AltR, M_AltR, M_AltR, M_AltR, M_AltR, M_AltR, M_AltL, Hk.
  - do 8 apply M_AltR. exact Hk.
Qed.

Lemma matches_keyword kw :
  matches (keyword_re tolower) kw ->
  is_keyword tolower kw \/ matches (qun_re tolower) kw.
Proof.
  unfold keyword_re. intros H.
  assert (forall k, In k keywords -> matches (LitI tolower k) kw ->
                    is_keyword tolower kw \/ matches (qun_re tolower) kw)
    as Hk.
  { intros k Hin Hm. left. exists k. split; trivial. apply matches_LitI, Hm. }
  apply matches_alt in H. destruct H as [H | H].
  { apply (Hk kw_quan); [cbv [keywords In]; auto 10 | exact H]. }
  apply matches_alt in H. destruct H as [H | H].
  { apply (Hk kw_quan_decomposed); [cbv [keywords In]; auto 10 | exact H]. }
  apply matches_alt in H. destruct H as [H | H].
  { right. exact H. }
  apply matches_alt in H. destruct H as [H | H].
  { apply (Hk kw_huyen); [cbv [keywords In]; auto 10 | exact H]. }
  apply matches_alt in H. destruct H as [H | H].
  { apply (Hk kw_huyen_plain); [cbv [keywords In]; auto 10 | exact H]. }
  apply matches_alt in H. destruct H as [H | H].
  { apply (Hk kw_thi_xa); [cbv [keywords In]; auto 10 | exact H]. }
  apply matches_alt in H. destruct H as [H | H].
  { apply (Hk kw_thi_xa_plain); [cbv [keywords In]; auto 10 | exact H]. }
  apply matches_alt in H. destruct H as [H | H].
  { apply (Hk kw_thi_xa); [cbv [keywords In]; auto 10 | exact H]. }
  apply (Hk kw_thi_xa_capital); [cbv [keywords In]; auto 10 | exact H].
Qed.

Lemma phrase_matches m :
  is_phrase tolower m -> matches (district_re tolower) m.
Proof.
  intros (kw & ws & name & -> & Hkw & H). unfold district_re.
  constructor; [apply keyword_matches, Hkw | ].
  apply matches_tail. exists ws, name. tauto.
Qed.

Lemma matches_district m :
  matches (district_re tolower) m ->
  is_phrase tolower m \/ matches (qun_phrase_re tolower) m.
Proof.
  unfold district_re, qun_phrase_re. intros H.
  inversion H as [ | | r1 r2 kw t Hkw Ht | | | | ]; subst.
  destruct (matches_keyword _ Hkw) as [Hk | Hq].
  - left. apply matches_tail in Ht.
    destruct Ht as (ws & name & -> & Ht).
    exists kw, ws, name. tauto.
  - right. constructor; trivial.
Qed.

(** The result of [extract_district] on a text where the alternative
    [Qu?n] matches nowhere *)
Lemma district_phrase_rule s :
  found (qun_phrase_re tolower) s = false ->
  (exists pre m rest,
     s = pre ++ m ++ rest
     /\ is_phrase tolower m
     /\ at_boundary rest
     /\ (forall pre' m' rest',
           s = pre' ++ m' ++ rest' -> is_phrase tolower m' ->
           (List.length pre <= List.length pre')%nat)
     /\ extract_district tolower (VStr s) = Some (strip m))
  \/ ((forall pre m rest, s = pre ++ m ++ rest -> ~ is_phrase tolower m)
      /\ extract_district tolower (VStr s)
         = Some (strip (if mem_char Price.comma s
                        then before_first Price.comma s else s))).
Proof.
  intros Hq. apply found_false in Hq. unfold extract_district.
  destruct (search (district_re tolower) s) as [[m rest] | ] eqn:E.
  - left. apply search_some in E.
    destruct E as (pre & Hs & Hm & Hat & Hleft).
    exists pre, m, rest. repeat split; trivial.
    + destruct (matches_district _ Hm) as [Hp | Hslip]; trivial.
      exfalso. apply (Hq pre m rest Hs Hslip).
    + apply match_at_district_boundary in Hat. exact Hat.
    + intros pre' m' rest' Hs' Hp. apply (Hleft pre' m' rest' Hs').
      apply phrase_matches, Hp.
  - right. apply search_none in E. split.
    + intros pre m rest Hs Hp. apply (E pre m rest Hs).
      apply phrase_matches, Hp.
    + destruct (mem_char Price.comma s); reflexivity.
Qed.

End IgnoringCase.

(** C6, as amended: on a text where the alternative [Qu?n] of the pattern
    matches nowhere, [extract_district] returns the trimmed phrase
    "keyword, white space, name" that starts leftmost in the text, the name
    running up to the next comma or line break, the keywords being Quận
    (in either spelling), Huyện, Huyen, Thị xã and Thi xa whatever the
    case; when the text has no such phrase it returns the trimmed text
    before the first comma, or the whole trimmed text when there is no
    comma.  On "Quận Ba Đình, Hà Nội" it returns "Quận Ba Đình" and on
    "Số 10, phố ABC, Hà Nội" it returns "Số 10". *)
Theorem extract_district_amended :
  (forall tolower s,
     found (qun_phrase_re tolower) s = false ->
     (exists pre m rest,
        s = pre ++ m ++ rest
        /\ is_phrase tolower m
        /\ at_boundary rest
        /\ (forall pre' m' rest',
              s = pre' ++ m' ++ rest' -> is_phrase tolower m' ->
              (List.length pre <= List.length pre')%nat)
        /\ extract_district tolower (VStr s) = Some (strip m))
     \/ ((forall pre m rest, s = pre ++ m ++ rest -> ~ is_phrase tolower m)
         /\ extract_district tolower (VStr s)
            = Some (strip (if mem_char Price.comma s
                           then before_first Price.comma s else s))))
  /\ extract_district tolower_latin (VStr (utf8 "Quận Ba Đình, Hà Nội"))
     = Some (utf8 "Quận Ba Đình")
  /\ extract_district tolower_latin (VStr (utf8 "Số 10, phố ABC, Hà Nội"))
     = Some (utf8 "Số 10").
Proof.
  split; [exact district_phrase_rule | ].
  split; vm_compute; reflexivity.
Qed.

Lemma extract_district_amended_witness :
  found (qun_phrase_re tolower_latin) (utf8 "Pho X, Huyen Y, Ha Noi") = false
  /\ ((exists pre m rest,
         utf8 "Pho X, Huyen Y, Ha Noi" = pre ++ m ++ rest
         /\ is_phrase tolower_latin m
         /\ at_boundary rest
         /\ (forall pre' m' rest',
               utf8 "Pho X, Huyen Y, Ha Noi" = pre' ++ m' ++ rest' ->
               is_phrase tolower_latin m' ->
               (List.length pre <= List.length pre')%nat)
         /\ extract_district tolower_latin
              (VStr (utf8 "Pho X, Huyen Y, Ha Noi")) = Some (strip m))
      \/ ((forall pre m rest,
             utf8 "Pho X, Huyen Y, Ha Noi" = pre ++ m ++ rest ->
             ~ is_phrase tolower_latin m)
          /\ extract_district tolower_latin
               (VStr (utf8 "Pho X, Huyen Y, Ha Noi"))
             = Some (strip (if mem_char Price.comma
                                 (utf8 "Pho X, Huyen Y, Ha Noi")
                            then before_first Price.comma
                                   (utf8 "Pho X, Huyen Y, Ha Noi")
                            else utf8 "Pho X, Huyen Y, Ha Noi")))).
Proof.
  split; [vm_compute; reflexivity | ].
  apply (proj1 extract_district_amended tolower_latin
           (utf8 "Pho X, Huyen Y, Ha Noi")).
  vm_compute; reflexivity.
Defined.

(** C6, as stated, fails: an unaccented keyword after the first comma is
    found by the pattern, and the phrase is returned without the blank
    that precedes the comma. *)
Lemma extract_district_differs_from_claim :
  extract_district tolower_latin (VStr (utf8 "Pho X, Huyen Y, Ha Noi"))
    = Some (utf8 "Huyen Y")
  /\ extract_district_claimed tolower_latin (utf8 "Pho X, Huyen Y, Ha Noi")
     = Some (utf8 "Pho X")
  /\ extract_district tolower_latin (VStr (utf8 "Quận Ba Đình , Hà Nội"))
     = Some (utf8 "Quận Ba Đình")
  /\ extract_district_claimed tolower_latin (utf8 "Quận Ba Đình , Hà Nội")
     = Some (utf8 "Quận Ba Đình ").
Proof. repeat split; vm_compute; reflexivity. Qed.

End DistrictFacts.

(** ** The table pass *)

Module CleanerFacts.
Import FloatFacts Cleaner.

Lemma eqb_str_eq a b : eqb_str a b = true <-> a = b.
Proof.
  revert b. induction a as [ | x a IH]; intros [ | y b]; simpl;
    split; try discriminate; trivial.
  - intros H. apply andb_true_iff in H. destruct H as [H1 H2].
    apply N.eqb_eq in H1. apply IH in H2. congruence.
  - intros [= -> ->]. apply andb_true_iff. split.
    + apply N.eqb_refl.
    + apply IH. reflexivity.
Qed.

Lemma eqb_cell_eq a b : eqb_cell a b = true <-> a = b.
Proof.
  destruct a as [x | ], b as [y | ]; simpl; split;
    try discriminate; trivial.
  - intros H. apply eqb_str_eq in H. congruence.
  - intros [= ->]. apply eqb_str_eq. reflexivity.
Qed.

Lemma eqb_cell_refl a : eqb_cell a a = true.
Proof. apply eqb_cell_eq. reflexivity. Qed.

Lemma seen_iff u seen : existsb (eqb_cell u) seen = true <-> In u seen.
Proof.
  rewrite existsb_exists. split.
  - intros (x & Hx & E). apply eqb_cell_eq in E. subst. exact Hx.
  - intros H. exists u. split; trivial. apply eqb_cell_refl.
Qed.

Lemma not_seen_iff u seen : existsb (eqb_cell u) seen = false <-> ~ In u seen.
Proof.
  rewrite <- seen_iff. destruct (existsb (eqb_cell u) seen);
    split; congruence.
Qed.

(** *** Deduplication *)

Lemma kept_row_not_seen seen rows r :
  In r (drop_duplicates_go seen rows) -> In r rows /\ ~ In (url r) seen.
Proof.
  revert seen. induction rows as [ | r0 rs IH]; intros seen; simpl.
  - intros [].
  - destruct (existsb (eqb_cell (url r0)) seen) eqn:E.
    + intros H. apply IH in H. tauto.
    + intros [-> | H].
      * split; [now left | ]. now apply not_seen_iff.
      * apply IH in H. simpl in H. tauto.
Qed.

Lemma kept_urls_NoDup seen rows :
  NoDup (map url (drop_duplicates_go seen rows)).
Proof.
  revert seen. induction rows as [ | r0 rs IH]; intros seen; simpl.
  - constructor.
  - destruct (existsb (eqb_cell (url r0)) seen); [apply IH | ].
    simpl. constructor; [ | apply IH].
    intros H. apply in_map_iff in H. destruct H as (r & E & Hr).
    apply kept_row_not_seen in Hr. destruct Hr as [_ Hr].
    apply Hr. rewrite E. now left.
Qed.

Lemma first_row_kept seen rows u :
  ~ In u seen -> In u (map url rows) ->
  exists r0, first_with_url u rows = Some r0
             /\ In r0 (drop_duplicates_go seen rows).
Proof.
  unfold first_with_url.
  revert seen. induction rows as [ | r rs IH]; intros seen Hu; simpl.
  - intros [].
  - intros Hin. destruct (eqb_cell (url r) u) eqn:E.
    + apply eqb_cell_eq in E. subst u.
      exists r. split; trivial.
      apply not_seen_iff in Hu. rewrite Hu. now left.
    + assert (url r <> u) as Hne
        by (intros <-; rewrite eqb_cell_refl in E; discriminate).
      destruct Hin as [Hin | Hin]; [contradiction | ].
      destruct (existsb (eqb_cell (url r)) seen).
      * apply IH; trivial.
      * destruct (IH (url r :: seen)) as (r0 & H1 & H2); trivial.
        { simpl. intros [H | H]; [congruence | contradiction]. }
        exists r0. split; trivial. now right.
Qed.

Lemma first_with_url_spec u rows r0 :
  first_with_url u rows = Some r0 ->
  exists before after,
    rows = before ++ r0 :: after /\ url r0 = u
    /\ Forall (fun r => url r <> u) before.
Proof.
  unfold first_with_url. induction rows as [ | r rs IH]; simpl.
  - discriminate.
  - destruct (eqb_cell (url r) u) eqn:E.
    + intros [= ->]. exists [], rs. apply eqb_cell_eq in E. auto.
    + intros H. destruct (IH H) as (before & after & -> & Hu & Hb).
      exists (r :: before), after. repeat split; trivial.
      constructor; trivial.
      intros <-. rewrite eqb_cell_refl in E. discriminate.
Qed.

Lemma NoDup_one_occurrence (A : Type) (f : A -> cell) (u : cell) xs :
  NoDup (map f xs) -> In u (map f xs) ->
  List.length (filter (fun x => eqb_cell (f x) u) xs) = 1%nat.
Proof.
  induction xs as [ | x xs IH]; simpl; [intros _ [] | ].
  intros Hnd Hin. inversion Hnd as [ | ? ? Hx Hnd']; subst.
  destruct (eqb_cell (f x) u) eqn:E.
  - apply eqb_cell_eq in E. subst u. simpl. f_equal.
    assert (filter (fun x0 => eqb_cell (f x0) (f x)) xs = []) as ->; trivial.
    clear - Hx. induction xs as [ | y ys IH]; simpl; trivial.
    destruct (eqb_cell (f y) (f x)) eqn:E.
    + apply eqb_cell_eq in E. exfalso. apply Hx. simpl. now left.
    + apply IH. intros H. apply Hx. simpl. now right.
  - destruct Hin as [Hin | Hin].
    + subst u. rewrite eqb_cell_refl in E. discriminate.
    + apply IH; trivial.
Qed.

(** *** Rows of the output *)

Lemma mapM_Forall2 (A B : Type) (f : A -> result B) xs ys :
  mapM f xs = Ret ys -> Forall2 (fun x y => f x = Ret y) xs ys.
Proof.
  revert ys. induction xs as [ | x xs IH]; simpl; intros ys.
  - intros [= <-]. constructor.
  - destruct (f x) as [y | e] eqn:E; simpl; [ | discriminate].
    destruct (mapM f xs) as [ys' | e]; simpl; [ | discriminate].
    intros [= <-]. constructor; auto.
Qed.

Lemma Forall2_map_eq (A B C : Type) (R : A -> B -> Prop)
    (f : A -> C) (g : B -> C) xs ys :
  (forall x y, R x y -> g y = f x) ->
  Forall2 R xs ys -> map g ys = map f xs.
Proof.
  intros H F. induction F as [ | x y xs ys Hxy _ IH]; simpl; trivial.
  rewrite IH, (H x y Hxy). reflexivity.
Qed.

Lemma Forall2_In_l (A B : Type) (R : A -> B -> Prop) xs ys x :
  Forall2 R xs ys -> In x xs -> exists y, In y ys /\ R x y.
Proof.
  intros F. induction F as [ | x0 y0 xs ys Hxy _ IH]; simpl; [intros [] | ].
  intros [-> | Hin].
  - exists y0. auto.
  - destruct (IH Hin) as (y & Hy & Hr). exists y. auto.
Qed.

Section Pass.
Variable lower : str -> str.
Variable tolower : char -> char.
Variable float_of_text : str -> option float.
Variable numeric_of_text : str -> option float.

Local Abbreviation clean_row := (clean_row lower tolower float_of_text numeric_of_text).
Local Abbreviation main := (main lower tolower float_of_text numeric_of_text).

(** The cleaned table holds the cleaned rows of the deduplicated input,
    in order, and the imputed table is the cleaned one with the area
    filled. *)
Lemma main_rows rows out imputed :
  main rows = Ret (out, imputed) ->
  Forall2 (fun r o => clean_row r = Ret o) (drop_duplicates rows) out
  /\ imputed = map (impute (median (map o_area_m2 out))) out.
Proof.
  unfold Cleaner.main.
  destruct (mapM _ (drop_duplicates rows)) as [out' | e] eqn:E; simpl;
    [ | discriminate].
  intros [= <- <-]. split; trivial. apply mapM_Forall2, E.
Qed.

Lemma clean_row_url r o : clean_row r = Ret o -> o_url o = url r.
Proof.
  unfold Cleaner.clean_row.
  destruct (Price.parse_price_to_million _ _); simpl; [ | discriminate].
  intros [= <-]. reflexivity.
Qed.

(** [main] writes its two tables exactly when no row kept by the
    deduplication has a price text on which the parser raises. *)
Lemma mapM_returns (A B : Type) (f : A -> result B) xs :
  Forall (fun x => exists y, f x = Ret y) xs -> exists ys, mapM f xs = Ret ys.
Proof.
  induction 1 as [ | x xs (y & Hy) _ (ys & IH)]; simpl.
  - eauto.
  - rewrite Hy, IH. simpl. eauto.
Qed.

Lemma clean_row_returns r v :
  Price.parse_price_to_million lower (value_of (price_raw r)) = Ret v ->
  exists o, clean_row r = Ret o.
Proof.
  intros H. unfold Cleaner.clean_row. rewrite H. simpl. eauto.
Qed.

Lemma main_returns rows :
  Forall (fun r => exists v,
            Price.parse_price_to_million lower (value_of (price_raw r))
            = Ret v)
         (drop_duplicates rows) ->
  exists out imputed, main rows = Ret (out, imputed).
Proof.
  intros H. unfold Cleaner.main.
  destruct (mapM_returns _ _ clean_row (drop_duplicates rows)) as (out & ->).
  - eapply Forall_impl; [ | exact H]. intros r (v & Hv).
    eapply clean_row_returns, Hv.
  - simpl. eauto.
Qed.

Lemma main_raises rows r :
  In r (drop_duplicates rows) ->
  Price.parse_price_to_million lower (value_of (price_raw r))
    = Raise AttributeError ->
  main rows = Raise AttributeError.
Proof.
  intros Hin Hr. unfold Cleaner.main.
  assert (mapM clean_row (drop_duplicates rows) = Raise AttributeError) as ->;
    [ | reflexivity].
  induction (drop_duplicates rows) as [ | r0 rs IH]; [destruct Hin | ].
  simpl. destruct Hin as [-> | Hin].
  - unfold Cleaner.clean_row. rewrite Hr. reflexivity.
  - destruct (clean_row r0) as [o | []]; simpl; trivial.
    rewrite (IH Hin). reflexivity.
Qed.

(** C7: in the cleaned output every url of the input occurs in exactly
    one row, the cleaned form of the first input row with that url; the
    url column has no repetition. *)
Theorem cleaned_url_unique rows out imputed :
  main rows = Ret (out, imputed) ->
  NoDup (map o_url out)
  /\ forall u, In u (map url rows) ->
       List.length (filter (fun o => eqb_cell (o_url o) u) out) = 1%nat
       /\ exists r0 o,
            first_with_url u rows = Some r0
            /\ clean_row r0 = Ret o /\ In o out /\ o_url o = u.
Proof.
  intros Hmain. apply main_rows in Hmain. destruct Hmain as [F _].
  assert (map o_url out = map url (drop_duplicates rows)) as Hurls.
  { eapply Forall2_map_eq; [ | exact F]. apply clean_row_url. }
  assert (NoDup (map o_url out)) as Hnd.
  { rewrite Hurls. apply kept_urls_NoDup. }
  split; trivial. intros u Hu.
  destruct (@first_row_kept [] rows u) as (r0 & Hfirst & Hkept);
    trivial; [intros [] | ].
  destruct (Forall2_In_l _ _ _ _ _ r0 F Hkept) as (o & Ho & Hclean).
  assert (o_url o = u) as Hou.
  { rewrite (clean_row_url _ _ Hclean).
    apply first_with_url_spec in Hfirst.
    destruct Hfirst as (? & ? & _ & E & _). exact E. }
  split.
  - apply NoDup_one_occurrence; trivial.
    apply in_map_iff. exists o. auto.
  - exists r0, o. auto.
Qed.

(** *** Area *)

Lemma in_range_positive_finite a :
  Spec.area_in_range a = true -> exists m e, a = S754_finite false m e.
Proof.
  unfold Spec.area_in_range. intros H. apply andb_true_iff in H.
  destruct H as [H1 H2].
  destruct a as [s | s | | s m e]; try discriminate.
  - destruct s; discriminate.
  - destruct s; [discriminate | eauto].
Qed.

Lemma valid_area_spec a :
  (is_nan a || leb a zero || ltb (of_Z 2000) a = true ->
   absent (valid_area a) = true)
  /\ (is_nan a || leb a zero || ltb (of_Z 2000) a = false ->
      valid_area a = a /\ Spec.area_in_range a = true).
Proof.
  unfold valid_area, Spec.area_in_range. split.
  - destruct a as [s | s | | s m e]; try reflexivity; simpl orb;
      intros H; rewrite H; reflexivity.
  - intros H. apply orb_false_iff in H. destruct H as [H H3].
    apply orb_false_iff in H. destruct H as [H1 H2].
    rewrite H2, H3. simpl. split; trivial.
    rewrite leb_false_ltb, ltb_false_leb; trivial.
Qed.

Lemma valid_area_ok a :
  absent (valid_area a) = true \/ Spec.area_in_range (valid_area a) = true.
Proof.
  destruct (valid_area_spec a) as [H1 H2].
  destruct (is_nan a || leb a zero || ltb (of_Z 2000) a).
  - left. auto.
  - right. destruct H2 as [-> H]; trivial.
Qed.

Lemma clean_row_area r o :
  clean_row r = Ret o -> o_area_m2 o = valid_area (to_numeric numeric_of_text (area_m2 r)).
Proof.
  unfold Cleaner.clean_row.
  destruct (Price.parse_price_to_million _ _); simpl; [ | discriminate].
  intros [= <-]. reflexivity.
Qed.

Lemma clean_row_area_rule r o :
  clean_row r = Ret o ->
  Spec.area_rule numeric_of_text (area_m2 r) (o_area_m2 o).
Proof.
  intros H. rewrite (clean_row_area _ _ H).
  unfold Spec.area_rule, to_numeric.
  destruct (area_m2 r) as [t | ]; [ | reflexivity].
  destruct (numeric_of_text t) as [x | ]; [ | reflexivity].
  destruct (valid_area_spec x) as [H1 H2].
  destruct (leb x zero || ltb (of_Z 2000) x) eqn:E.
  - apply H1. rewrite <- orb_assoc, E. apply orb_true_r.
  - destruct (is_nan x) eqn:En.
    + destruct x; try discriminate. reflexivity.
    + apply H2. rewrite <- orb_assoc, E, ?En. reflexivity.
Qed.

(** C8: in the cleaned output the area of every row is absent or lies
    in (0, 2000]; it is absent when the input cell does not parse as a
    number or parses to a number [<= 0] or [> 2000], and it is the parsed
    number otherwise. *)
Theorem cleaned_area_valid rows out imputed :
  main rows = Ret (out, imputed) ->
  Forall (fun o => absent (o_area_m2 o) = true
                   \/ Spec.area_in_range (o_area_m2 o) = true) out
  /\ Forall2 (fun r o =>
                Spec.area_rule numeric_of_text (area_m2 r) (o_area_m2 o))
             (drop_duplicates rows) out.
Proof.
  intros Hmain. apply main_rows in Hmain. destruct Hmain as [F _].
  induction F as [ | r o rs os Hro _ [IH1 IH2]]; split; constructor; trivial.
  - rewrite (clean_row_area _ _ Hro). apply valid_area_ok.
  - apply clean_row_area_rule, Hro.
Qed.

(** *** Prices *)

(** C10: when the parser returns the absent value for the price text of
    a row and the price_vnd cell parses to a number, the cleaned row has
    that number as price_million_final while its price_billion is absent,
    so that price_billion is not price_million_final / 1000. *)
Theorem price_billion_from_parser_only rows out imputed :
  main rows = Ret (out, imputed) ->
  Forall2 (fun r o =>
             forall f,
               Price.parse_price_to_million lower (value_of (price_raw r))
                 = Ret None ->
               safe_float float_of_text (price_vnd r) = Some f ->
               is_nan f = false ->
               o_price_million_final o = f
               /\ absent (o_price_million_final o) = false
               /\ absent (o_price_billion o) = true
               /\ absent (div (o_price_million_final o) (of_Z 1000)) = false)
          (drop_duplicates rows) out.
Proof.
  intros Hmain. apply main_rows in Hmain. destruct Hmain as [F _].
  induction F as [ | r o rs os Hro _ IH]; constructor; trivial.
  intros f Hparse Hvnd Hf. revert Hro. unfold Cleaner.clean_row.
  rewrite Hparse, Hvnd. simpl. rewrite Hf. simpl.
  intros [= <-]. simpl. repeat split; trivial.
  change (of_Z 1000) with (S754_finite false 8796093022208000 (-43)).
  apply div_by_finite_not_nan, Hf.
Qed.


(** *** Imputation *)

Lemma insert_sorted_In x y xs :
  In x (insert_sorted y xs) <-> x = y \/ In x xs.
Proof.
  induction xs as [ | z zs IH]; simpl.
  - intuition.
  - destruct (leb y z); simpl; rewrite ?IH; intuition.
Qed.

Lemma sort_In x xs : In x (sort xs) <-> In x xs.
Proof.
  induction xs as [ | y ys IH]; simpl; [tauto | ].
  rewrite insert_sorted_In, IH. intuition.
Qed.

Lemma insert_sorted_length y xs :
  List.length (insert_sorted y xs) = S (List.length xs).
Proof.
  induction xs as [ | z zs IH]; simpl; trivial.
  destruct (leb y z); simpl; rewrite ?IH; trivial.
Qed.

Lemma sort_length xs : List.length (sort xs) = List.length xs.
Proof.
  induction xs as [ | y ys IH]; simpl; trivial.
  rewrite insert_sorted_length, IH. reflexivity.
Qed.

(** The median of a column with a present value, whose present values
    lie in (0, 2000], is present. *)
Lemma median_present xs :
  (exists x, In x xs /\ absent x = false) ->
  Forall (fun x => absent x = true \/ Spec.area_in_range x = true) xs ->
  absent (median xs) = false.
Proof.
  intros (x0 & Hin0 & Hx0) Hok. unfold median.
  set (present := sort (filter (fun x => negb (is_nan x)) xs)).
  assert (forall x, In x present -> exists m e, x = S754_finite false m e)
    as Hpos.
  { intros x Hx. apply sort_In, filter_In in Hx. destruct Hx as [Hx Hn].
    rewrite Forall_forall in Hok. destruct (Hok x Hx) as [H | H].
    - unfold absent in H. rewrite H in Hn. discriminate.
    - apply in_range_positive_finite, H. }
  assert (In x0 present) as Hp0.
  { apply sort_In, filter_In. split; trivial.
    unfold absent in Hx0. rewrite Hx0. reflexivity. }
  destruct (List.length present) as [ | n] eqn:En.
  { destruct present; [contradiction | discriminate]. }
  assert (forall i, (i < S n)%nat -> exists m e,
             nth i present nan = S754_finite false m e) as Hnth.
  { intros i Hi. apply Hpos, nth_In. lia. }
  assert (S n / 2 < S n)%nat as Hmid by (apply Nat.div_lt; lia).
  destruct (Nat.even (S n)).
  - destruct (Hnth (S n / 2 - 1)%nat) as (m1 & e1 & ->); [lia | ].
    destruct (Hnth (S n / 2)%nat) as (m2 & e2 & ->); trivial.
    apply nonneg_not_nan, half_nonneg, add_finite_nonneg.
  - destruct (Hnth (S n / 2)%nat) as (m & e & ->); trivial.
Qed.

(** C9, as amended: when some row of the cleaned output has an area,
    no area is absent in the imputed output; a row whose cleaned area is
    absent gets the median of the present cleaned areas, and the other
    rows and columns are as in the cleaned output. *)
Theorem imputed_area_filled rows out imputed :
  main rows = Ret (out, imputed) ->
  (exists o, In o out /\ absent (o_area_m2 o) = false) ->
  Forall (fun i => absent (o_area_m2 i) = false) imputed
  /\ Forall2 (fun o i =>
                i = impute (median (map o_area_m2 out)) o
                /\ o_area_m2 i = (if absent (o_area_m2 o)
                                  then median (map o_area_m2 out)
                                  else o_area_m2 o))
             out imputed.
Proof.
  intros Hmain (o0 & Hin0 & Ho0).
  destruct (cleaned_area_valid _ _ _ Hmain) as [Hok _].
  apply main_rows in Hmain. destruct Hmain as [_ ->].
  assert (absent (median (map o_area_m2 out)) = false) as Hmed.
  { apply median_present.
    - exists (o_area_m2 o0). split; trivial. apply in_map, Hin0.
    - apply Forall_forall. intros a Ha. apply in_map_iff in Ha.
      destruct Ha as (o & <- & Ho).
      rewrite Forall_forall in Hok. apply Hok, Ho. }
  set (med := median (map o_area_m2 out)) in *. clearbody med.
  clear Hok Hin0 Ho0 o0. split.
  - apply Forall_forall. intros i Hi. apply in_map_iff in Hi.
    destruct Hi as (o & <- & _). simpl. unfold absent in *.
    destruct (is_nan (o_area_m2 o)) eqn:E; trivial.
  - induction out as [ | o os IH]; simpl; constructor; trivial.
    split; reflexivity.
Qed.

End Pass.

(** *** The sample tables *)

Import Examples.

Lemma run_table : run table = Ret (table_out, table_imputed).
Proof. vm_compute. reflexivity. Qed.

Lemma cleaned_url_unique_witness :
  run table = Ret (table_out, table_imputed)
  /\ NoDup (map o_url table_out)
  /\ forall u, In u (map url table) ->
       List.length (filter (fun o => eqb_cell (o_url o) u) table_out) = 1%nat
       /\ exists r0 o,
            first_with_url u table = Some r0
            /\ clean_row lower_latin District.tolower_latin of_decimal
                 of_decimal r0 = Ret o
            /\ In o table_out /\ o_url o = u.
Proof.
  split; [vm_compute; reflexivity | ].
  apply (@cleaned_url_unique lower_latin District.tolower_latin of_decimal
           of_decimal table table_out table_imputed).
  vm_compute; reflexivity.
Defined.

Lemma cleaned_area_valid_witness :
  run table = Ret (table_out, table_imputed)
  /\ Forall (fun o => absent (o_area_m2 o) = true
                      \/ Spec.area_in_range (o_area_m2 o) = true) table_out
  /\ Forall2 (fun r o => Spec.area_rule of_decimal (area_m2 r) (o_area_m2 o))
             (drop_duplicates table) table_out.
Proof.
  split; [vm_compute; reflexivity | ].
  apply (@cleaned_area_valid lower_latin District.tolower_latin of_decimal
           of_decimal table table_out table_imputed).
  vm_compute; reflexivity.
Defined.

Lemma price_billion_from_parser_only_witness :
  run table = Ret (table_out, table_imputed)
  /\ Forall2 (fun r o =>
               forall f,
                 Price.parse_price_to_million lower_latin
                   (value_of (price_raw r)) = Ret None ->
                 safe_float of_decimal (price_vnd r) = Some f ->
                 is_nan f = false ->
                 o_price_million_final o = f
                 /\ absent (o_price_million_final o) = false
                 /\ absent (o_price_billion o) = true
                 /\ absent (div (o_price_million_final o) (of_Z 1000)) = false)
            (drop_duplicates table) table_out.
Proof.
  split; [vm_compute; reflexivity | ].
  apply (@price_billion_from_parser_only lower_latin District.tolower_latin
           of_decimal of_decimal table table_out table_imputed).
  vm_compute; reflexivity.
Defined.

(** The row [listing_b] of the sample table: no price text, price_vnd
    4500. *)
Lemma listing_b_price :
  Price.parse_price_to_million lower_latin (value_of (price_raw listing_b))
    = Ret None
  /\ safe_float of_decimal (price_vnd listing_b) = Some (of_Z 4500)
  /\ exists o, In o table_out /\ o_url o = url listing_b
               /\ o_price_million_final o = of_Z 4500
               /\ absent (o_price_billion o) = true.
Proof.
  split; [reflexivity | ]. split; [vm_compute; reflexivity | ].
  eexists. split; [right; left; reflexivity | ].
  repeat split; reflexivity.
Qed.

Lemma imputed_area_filled_witness :
  run table = Ret (table_out, table_imputed)
  /\ (exists o, In o table_out /\ absent (o_area_m2 o) = false)
  /\ Forall (fun i => absent (o_area_m2 i) = false) table_imputed
  /\ Forall2 (fun o i =>
                i = impute (median (map o_area_m2 table_out)) o
                /\ o_area_m2 i = (if absent (o_area_m2 o)
                                  then median (map o_area_m2 table_out)
                                  else o_area_m2 o))
             table_out table_imputed.
Proof.
  assert (exists o, In o table_out /\ absent (o_area_m2 o) = false) as H.
  { eexists. split; [left; reflexivity | reflexivity]. }
  split; [vm_compute; reflexivity | ]. split; [exact H | ].
  apply (@imputed_area_filled lower_latin District.tolower_latin of_decimal
           of_decimal table table_out table_imputed);
    [vm_compute; reflexivity | exact H].
Defined.

(** C9, as stated, fails: in a table where no row has an area the median
    is NaN and the area stays absent in the imputed output. *)
Lemma imputed_area_absent_without_areas :
  exists imputed,
    run table_without_area = Ret (table_without_area_out, imputed)
    /\ exists i, In i imputed /\ absent (o_area_m2 i) = true.
Proof.
  eexists. split; [vm_compute; reflexivity | ].
  eexists. split; [left; reflexivity | ]. reflexivity.
Qed.

End CleanerFacts.

(** * Further properties of the code *)

(** ** Trimming and splitting of texts *)

Module StrFacts.
Import Shape.

Lemma lstrip_split p s :
  exists a, s = a ++ lstrip_by p s /\ forallb p a = true.
Proof.
  induction s as [ | c s (a & Ha & Hp)]; simpl.
  - exists []. auto.
  - destruct (p c) eqn:E.
    + exists (c :: a). split.
      * simpl. rewrite <- Ha. reflexivity.
      * simpl. rewrite E. exact Hp.
    + exists []. auto.
Qed.

Lemma lstrip_head p s :
  match lstrip_by p s with [] => True | c :: _ => p c = false end.
Proof.
  induction s as [ | c s IH]; simpl; trivial.
  destruct (p c) eqn:E; trivial.
Qed.

Lemma lstrip_fixed p s :
  match s with [] => True | c :: _ => p c = false end -> lstrip_by p s = s.
Proof. destruct s as [ | c s]; simpl; trivial. intros ->. reflexivity. Qed.

Lemma lstrip_length p s : (List.length (lstrip_by p s) <= List.length s)%nat.
Proof.
  destruct (lstrip_split p s) as (a & Ha & _).
  rewrite Ha at 2. rewrite length_app. lia.
Qed.

Lemma lstrip_all p s : forallb p s = true -> lstrip_by p s = [].
Proof.
  induction s as [ | c s IH]; simpl; trivial.
  intros H. apply andb_true_iff in H. destruct H as [-> H]. auto.
Qed.

Lemma lstrip_nil p s : lstrip_by p s = [] -> forallb p s = true.
Proof.
  destruct (lstrip_split p s) as (a & Ha & Hp). intros E.
  rewrite E, app_nil_r in Ha. congruence.
Qed.

Lemma forallb_rev (p : char -> bool) s : forallb p (rev s) = forallb p s.
Proof.
  induction s as [ | c s IH]; simpl; trivial.
  rewrite forallb_app, IH. simpl. rewrite andb_true_r. apply andb_comm.
Qed.

Lemma rstrip_split p s :
  exists b, s = rstrip_by p s ++ b /\ forallb p b = true.
Proof.
  unfold rstrip_by. destruct (lstrip_split p (rev s)) as (a & Ha & Hp).
  exists (rev a). split.
  - rewrite <- rev_app_distr, <- Ha, rev_involutive. reflexivity.
  - rewrite forallb_rev. exact Hp.
Qed.

(** The stripped text is a piece of the text, between two runs of the
    class. *)
Lemma strip_split p s :
  exists a b,
    s = a ++ strip_by p s ++ b /\ forallb p a = true /\ forallb p b = true.
Proof.
  unfold strip_by.
  destruct (lstrip_split p s) as (a & Ha & Hpa).
  destruct (rstrip_split p (lstrip_by p s)) as (b & Hb & Hpb).
  exists a, b. repeat split; trivial.
  rewrite <- Hb. exact Ha.
Qed.

Lemma strip_piece p s : piece_of (strip_by p s) s.
Proof.
  destruct (strip_split p s) as (a & b & H & _). exists a, b. exact H.
Qed.

Lemma rev_head_last (s : str) c t :
  rev s = c :: t -> s = rev t ++ [c].
Proof.
  intros H. rewrite <- (rev_involutive s), H. reflexivity.
Qed.

Lemma strip_ends_free p s : ends_free p (strip_by p s) = true.
Proof.
  unfold ends_free, strip_by, rstrip_by. rewrite rev_involutive.
  set (t := lstrip_by p s).
  pose proof (lstrip_head p (rev t)) as Hlast.
  pose proof (lstrip_head p s) as Hhead. fold t in Hhead.
  destruct (lstrip_split p (rev t)) as (a & Ha & Hpa).
  set (u := lstrip_by p (rev t)) in *.
  apply andb_true_iff. split.
  - destruct u as [ | c u'] eqn:Eu; [reflexivity | ].
    (* the head of [rev u] is the last character of [u], which is the last
       of [rev t], that is the head of [t] *)
    assert (t = rev (c :: u') ++ rev a) as Ht.
    { rewrite <- rev_app_distr, <- Ha, rev_involutive. reflexivity. }
    destruct (rev (c :: u')) as [ | d w] eqn:Er.
    + reflexivity.
    + rewrite Ht in Hhead. simpl in Hhead. rewrite Hhead. reflexivity.
  - destruct u as [ | c u']; [reflexivity | ]. rewrite Hlast. reflexivity.
Qed.

Lemma strip_fixed p s : ends_free p s = true -> strip_by p s = s.
Proof.
  unfold ends_free, strip_by, rstrip_by. intros H.
  apply andb_true_iff in H. destruct H as [H1 H2].
  rewrite (lstrip_fixed p s).
  - rewrite (lstrip_fixed p (rev s)); [apply rev_involutive | ].
    destruct (rev s); trivial. apply negb_true_iff, H2.
  - destruct s; trivial. apply negb_true_iff, H1.
Qed.

Lemma strip_nil p s : strip_by p s = [] <-> forallb p s = true.
Proof.
  split.
  - intros E. destruct (strip_split p s) as (a & b & H & Ha & Hb).
    rewrite E in H. rewrite H. simpl. rewrite forallb_app, Ha, Hb. reflexivity.
  - intros H. unfold strip_by. rewrite (lstrip_all p s H). reflexivity.
Qed.

Lemma piece_of_trans a b c : piece_of a b -> piece_of b c -> piece_of a c.
Proof.
  intros (p1 & q1 & ->) (p2 & q2 & ->).
  exists (p2 ++ p1), (q1 ++ q2). rewrite <- !app_assoc. reflexivity.
Qed.

Lemma before_first_prefix c s : exists t, s = before_first c s ++ t.
Proof.
  induction s as [ | x s (t & Ht)]; simpl.
  - exists []. reflexivity.
  - destruct (eqb_char x c).
    + exists (x :: s). reflexivity.
    + exists t. simpl. congruence.
Qed.

End StrFacts.

(** ** The matcher on classes, literals and separators *)

Module ReMore.
Import Shape ReFacts StrFacts.

Lemma star_cls_greedy p fuel s :
  (List.length s < fuel)%nat ->
  star_loop (rmatch (Cls p)) fuel s (fun x => Some x)
  = Some (lstrip_by p s).
Proof.
  revert s. induction fuel as [ | n IH]; intros s Hlt; [lia | ].
  cbn [star_loop]. rewrite rmatch_cls. destruct s as [ | c s']; trivial.
  simpl lstrip_by. destruct (p c); trivial.
  simpl in Hlt.
  destruct (Nat.ltb_spec (List.length s') (List.length (c :: s')));
    [ | simpl in *; lia].
  rewrite IH by lia. reflexivity.
Qed.

Lemma match_at_cls p s :
  match_at (Cls p) s
  = match s with
    | c :: s' => if p c then Some s' else None
    | [] => None
    end.
Proof. reflexivity. Qed.

(** A repetition of a class takes the whole run. *)
Lemma match_at_plus_cls p s :
  match_at (Plus (Cls p)) s
  = match s with
    | c :: s' => if p c then Some (lstrip_by p s') else None
    | [] => None
    end.
Proof.
  unfold match_at, Plus. rewrite rmatch_cat, rmatch_cls.
  destruct s as [ | c s']; trivial. destruct (p c); trivial.
  apply (star_cls_greedy p (S (List.length s')) s'). lia.
Qed.

(** [re.sub] with a pattern that is one class works character by
    character. *)
Lemma sub_cls p repl s :
  sub (Cls p) repl s = flat_map (fun c => if p c then repl else [c]) s.
Proof.
  unfold sub. induction s as [ | c s IH]; trivial.
  cbn [sub_go flat_map]. rewrite match_at_cls.
  destruct (p c).
  - replace (List.length (c :: s) - List.length s)%nat with 1%nat
      by (cbn [List.length]; lia).
    rewrite IH. reflexivity.
  - rewrite IH. reflexivity.
Qed.

(** [re.sub] with a repeated class replaces each run once. *)
Lemma sub_plus_cls p repl s :
  sub (Plus (Cls p)) repl s = collapse_go p repl false s.
Proof.
  unfold sub.
  assert (sub_go (Plus (Cls p)) repl s 0 = collapse_go p repl false s
          /\ sub_go (Plus (Cls p)) repl s
               (List.length s - List.length (lstrip_by p s))
             = collapse_go p repl true s) as [H _]; trivial.
  induction s as [ | c s [IH0 IH1]]; [split; reflexivity | ].
  pose proof (lstrip_length p s) as Hlen.
  assert (sub_go (Plus (Cls p)) repl (c :: s) 0
          = collapse_go p repl false (c :: s)) as H0.
  { cbn [sub_go collapse_go]. rewrite match_at_plus_cls.
    destruct (p c).
    - replace (List.length (c :: s) - List.length (lstrip_by p s))%nat
        with (S (List.length s - List.length (lstrip_by p s)))
        by (cbn [List.length]; lia).
      rewrite IH1. reflexivity.
    - rewrite IH0. reflexivity. }
  split; trivial.
  simpl lstrip_by. destruct (p c) eqn:E.
  - replace (List.length (c :: s) - List.length (lstrip_by p s))%nat
      with (S (List.length s - List.length (lstrip_by p s)))
      by (cbn [List.length]; lia).
    cbn [sub_go collapse_go]. rewrite E. exact IH1.
  - rewrite Nat.sub_diag, H0. cbn [collapse_go]. rewrite E. reflexivity.
Qed.

Lemma matches_cat_inv r1 r2 m :
  matches (Cat r1 r2) m ->
  exists a b, m = a ++ b /\ matches r1 a /\ matches r2 b.
Proof.
  intros H. inversion H as [ | | ? ? a b Ha Hb | | | | ]; subst. eauto.
Qed.

Lemma matches_cls_inv p m :
  matches (Cls p) m -> exists c, m = [c] /\ p c = true.
Proof.
  intros H. inversion H as [ | q c Hc | | | | | ]; subst. eauto.
Qed.

(** *** Literals *)

Lemma matches_Lit l m : matches (Lit l) m <-> m = l.
Proof.
  revert m. induction l as [ | c l IH]; intros m; simpl; split.
  - intros H. inversion H. reflexivity.
  - intros ->. constructor.
  - intros H. inversion H as [ | | r1 r2 a b Ha Hb | | | | ]; subst.
    inversion Ha as [ | q x Hx | | | | | ]; subst.
    apply N.eqb_eq in Hx. subst. apply IH in Hb. subst. reflexivity.
  - intros ->. apply (M_Cat (Chr c) (Lit l) [c] l).
    + constructor. apply N.eqb_refl.
    + apply IH. reflexivity.
Qed.

Lemma starts_with_spec l s :
  starts_with l s = true <-> exists t, s = l ++ t.
Proof.
  revert s. induction l as [ | c l IH]; intros s; simpl.
  - split; eauto.
  - destruct s as [ | x s]; split; try discriminate.
    + intros (t & Ht). discriminate.
    + intros H. apply andb_true_iff in H. destruct H as [H1 H2].
      apply N.eqb_eq in H1. apply IH in H2. destruct H2 as (t & ->).
      exists t. congruence.
    + intros (t & [= -> ->]). apply andb_true_iff. split.
      * apply N.eqb_refl.
      * apply IH. eauto.
Qed.

(** [needle in hay] is the occurrence of the needle as a piece. *)
Lemma contains_spec l s : contains l s = true <-> piece_of l s.
Proof.
  unfold piece_of. induction s as [ | x s IH]; simpl.
  - rewrite starts_with_spec. split.
    + intros (t & Ht). exists [], t. exact Ht.
    + intros (pre & post & H). destruct pre; simpl in H.
      * eauto.
      * discriminate.
  - rewrite orb_true_iff, starts_with_spec, IH. split.
    + intros [(t & ->) | (pre & post & ->)].
      * exists [], t. reflexivity.
      * exists (x :: pre), post. reflexivity.
    + intros (pre & post & H). destruct pre as [ | y pre]; simpl in H.
      * left. eauto.
      * right. injection H as -> ->. eauto.
Qed.

Lemma found_iff r s :
  found r s = true <-> exists pre m post, s = pre ++ m ++ post /\ matches r m.
Proof.
  unfold found. destruct (search r s) as [[m rest] | ] eqn:E; split;
    trivial; try discriminate.
  - intros _. apply search_some in E. destruct E as (pre & Hs & Hm & _).
    exists pre, m, rest. auto.
  - intros (pre & m & post & Hs & Hm). exfalso.
    apply (search_none _ _ E pre m post Hs Hm).
Qed.

(** Searching a literal is the substring test. *)
Lemma found_Lit l s : found (Lit l) s = contains l s.
Proof.
  apply eq_true_iff_eq. rewrite found_iff, contains_spec. unfold piece_of.
  split.
  - intros (pre & m & post & Hs & Hm). apply matches_Lit in Hm. subst. eauto.
  - intros (pre & post & Hs). exists pre, l, post. split; trivial.
    apply matches_Lit. reflexivity.
Qed.

Lemma found_Alt r1 r2 s : found (Alt r1 r2) s = found r1 s || found r2 s.
Proof.
  apply eq_true_iff_eq. rewrite orb_true_iff, !found_iff. split.
  - intros (pre & m & post & Hs & Hm). apply matches_alt in Hm.
    destruct Hm; [left | right]; eauto 6.
  - intros [(pre & m & post & Hs & Hm) | (pre & m & post & Hs & Hm)];
      exists pre, m, post; split; trivial;
      [apply M_AltL | apply M_AltR]; trivial.
Qed.

(** *** Pieces of a split *)

Lemma match_at_prefix r s rest :
  match_at r s = Some rest ->
  matches r (firstn (List.length s - List.length rest) s)
  /\ rest = skipn (List.length s - List.length rest) s.
Proof.
  intros H. destruct (match_at_sound _ _ _ H) as (m & -> & Hm).
  rewrite length_app.
  replace (List.length m + List.length rest - List.length rest)%nat
    with (List.length m) by lia.
  rewrite firstn_app, firstn_all, Nat.sub_diag, app_nil_r.
  rewrite skipn_app, skipn_all, Nat.sub_diag. simpl. auto.
Qed.

Lemma existsb_rev (q : char -> bool) s : existsb q (rev s) = existsb q s.
Proof.
  induction s as [ | c s IH]; simpl; trivial.
  rewrite existsb_app, IH. simpl. rewrite orb_false_r. apply orb_comm.
Qed.

(** When no match of the separator holds a character of the class [q],
    the pieces hold such a character exactly when the text does. *)
Lemma split_go_exists r q :
  (forall m, matches r m -> existsb q m = false) ->
  forall s skip cur,
    existsb q (firstn skip s) = false ->
    existsb (existsb q) (split_go r s skip cur)
    = existsb q cur || existsb q (skipn skip s).
Proof.
  intros Hsep. induction s as [ | c s IH]; intros skip cur Hskip.
  - cbn [split_go existsb]. rewrite existsb_rev.
    destruct skip; simpl; rewrite ?orb_false_r; reflexivity.
  - cbn [split_go]. destruct skip as [ | n].
    + cbn [skipn].
      assert (existsb (existsb q) (split_go r s 0 (c :: cur))
              = existsb q cur || existsb q (c :: s)) as Hkeep.
      { rewrite (IH 0%nat (c :: cur) eq_refl). simpl.
        rewrite orb_assoc, (orb_comm (q c)). reflexivity. }
      destruct (match_at r (c :: s)) as [rest | ] eqn:E; trivial.
      destruct (List.length (c :: s) - List.length rest)%nat as [ | n] eqn:En;
        trivial.
      destruct (match_at_prefix _ _ _ E) as [Hm _]. rewrite En in Hm.
      apply Hsep in Hm. cbn [firstn existsb] in Hm.
      apply orb_false_iff in Hm. destruct Hm as [Hc Hn].
      cbn [existsb]. rewrite existsb_rev, (IH n [] Hn). cbn [existsb].
      rewrite Hc. cbn [orb].
      rewrite <- (firstn_skipn n s) at 2. rewrite existsb_app, Hn.
      reflexivity.
    + cbn [firstn existsb] in Hskip. apply orb_false_iff in Hskip.
      destruct Hskip as [_ Hn]. cbn [skipn]. apply IH, Hn.
Qed.

Lemma split_exists r q s :
  (forall m, matches r m -> existsb q m = false) ->
  existsb (existsb q) (split r s) = existsb q s.
Proof.
  intros Hsep. unfold split.
  rewrite (split_go_exists r q Hsep s 0 [] eq_refl). reflexivity.
Qed.

(** Two separators that match alike on every tail of the text split it
    alike. *)
Lemma split_go_ext r1 r2 s :
  (forall pre t, s = pre ++ t -> match_at r1 t = match_at r2 t) ->
  forall skip cur, split_go r1 s skip cur = split_go r2 s skip cur.
Proof.
  induction s as [ | c s IH]; intros H skip cur; trivial.
  cbn [split_go]. rewrite (H [] (c :: s) eq_refl).
  assert (forall skip cur, split_go r1 s skip cur = split_go r2 s skip cur)
    as IH'.
  { apply IH. intros pre t ->. apply (H (c :: pre) t). reflexivity. }
  destruct skip; [ | apply IH'].
  destruct (match_at r2 (c :: s)); [ | apply IH'].
  destruct (_ - _)%nat; rewrite IH'; reflexivity.
Qed.

(** *** The characters of a match *)

Lemma matches_alphabet r m :
  matches r m -> forallb (alphabet r) m = true.
Proof.
  intros H. apply forallb_forall.
  induction H as [ | p c Hc | r1 r2 a b _ IH1 _ IH2 | r1 r2 a _ IH
                 | r1 r2 a _ IH | r | r a b _ _ IH1 _ IH2];
    intros x Hx; cbn [alphabet].
  - destruct Hx.
  - destruct Hx as [<- | []]. exact Hc.
  - apply in_app_or in Hx. destruct Hx as [Hx | Hx].
    + rewrite (IH1 x Hx). reflexivity.
    + rewrite (IH2 x Hx). apply orb_true_r.
  - rewrite (IH x Hx). reflexivity.
  - rewrite (IH x Hx). apply orb_true_r.
  - destruct Hx.
  - apply in_app_or in Hx. destruct Hx as [Hx | Hx].
    + apply (IH1 x Hx).
    + apply (IH2 x Hx).
Qed.

End ReMore.

(** ** The price parser, step by step *)

Module PriceMore.
Import Shape ReFacts StrFacts ReMore FloatFacts Price PriceFacts.

(** *** Digits through the normalization and the split *)

Lemma digit_cases c : is_digit c = true -> In c ascii_digits.
Proof.
  unfold is_digit. intros H. apply andb_true_iff in H. destruct H as [H1 H2].
  apply N.leb_le in H1, H2.
  assert (c = 48 \/ c = 49 \/ c = 50 \/ c = 51 \/ c = 52 \/ c = 53
          \/ c = 54 \/ c = 55 \/ c = 56 \/ c = 57)%N as Hc by lia.
  repeat (destruct Hc as [-> | Hc]; [vm_compute; auto 12 | ]).
  subst. vm_compute. auto 12.
Qed.

(** A class that holds none of the ten digits holds no digit. *)
Lemma class_without_digits (p : char -> bool) :
  existsb p ascii_digits = false ->
  forall c, is_digit c = true -> p c = false.
Proof.
  intros H c Hc. apply digit_cases in Hc.
  destruct (p c) eqn:E; trivial.
  rewrite <- H. symmetry. apply existsb_exists. eauto.
Qed.

Lemma no_digit_in_class (p : char -> bool) s :
  existsb p ascii_digits = false ->
  forallb p s = true -> existsb is_digit s = false.
Proof.
  intros H Hs. induction s as [ | c s IH]; trivial.
  simpl in *. apply andb_true_iff in Hs. destruct Hs as [Hc Hs].
  rewrite (IH Hs), orb_false_r.
  destruct (is_digit c) eqn:E; trivial.
  rewrite (class_without_digits p H c E) in Hc. discriminate.
Qed.

Lemma range_sep_without_digit m :
  matches range_sep m -> existsb is_digit m = false.
Proof.
  intros H. apply matches_alphabet in H.
  apply (no_digit_in_class (alphabet range_sep)); trivial.
Qed.

Lemma strip_digits s : existsb is_digit (strip s) = existsb is_digit s.
Proof.
  unfold strip. destruct (strip_split is_space s) as (a & b & H & Ha & Hb).
  rewrite H at 2. rewrite !existsb_app.
  rewrite (no_digit_in_class is_space a), (no_digit_in_class is_space b);
    trivial.
  rewrite orb_false_r. reflexivity.
Qed.

Lemma existsb_flat_map (q : char -> bool) (f : char -> str) s :
  (forall c, existsb q (f c) = q c) ->
  existsb q (flat_map f s) = existsb q s.
Proof.
  intros H. induction s as [ | c s IH]; trivial.
  simpl. rewrite existsb_app, H, IH. reflexivity.
Qed.

Lemma replace_digits old new s :
  is_digit old = false -> existsb is_digit new = false ->
  existsb is_digit (replace_char old new s) = existsb is_digit s.
Proof.
  intros Ho Hn. unfold replace_char. apply existsb_flat_map.
  intros c. destruct (eqb_char c old) eqn:E.
  - apply N.eqb_eq in E. subst. rewrite Hn, Ho. reflexivity.
  - simpl. apply orb_false_r.
Qed.

Lemma digit_kept c : is_digit c = true -> kept c = true.
Proof. unfold kept. intros ->. reflexivity. Qed.

Lemma normalized_digits raw :
  existsb is_digit (normalized raw) = existsb is_digit raw.
Proof.
  unfold normalized. rewrite strip_digits, sub_cls.
  rewrite existsb_flat_map.
  - rewrite !replace_digits; trivial.
  - intros c. destruct (kept c) eqn:E; simpl.
    + apply orb_false_r.
    + destruct (is_digit c) eqn:Ed; trivial.
      rewrite (digit_kept c Ed) in E. discriminate.
Qed.

(** *** A piece and its number *)

Lemma digit_matches_number c : is_digit c = true -> matches number_re [c].
Proof.
  intros H. unfold number_re.
  apply (M_Cat _ _ [c] []).
  - apply matches_plus_cls. split; [discriminate | ]. simpl. rewrite H.
    reflexivity.
  - apply (M_Cat _ _ [] []); [apply M_AltR | ]; constructor.
Qed.

Lemma existsb_piece (q : char -> bool) s :
  existsb q s = true -> exists pre c post, s = pre ++ [c] ++ post /\ q c = true.
Proof.
  intros H. apply existsb_exists in H. destruct H as (c & Hin & Hc).
  apply in_split in Hin. destruct Hin as (pre & post & ->).
  exists pre, c, post. auto.
Qed.

Lemma search_number_iff p :
  search number_re p = None <-> existsb is_digit p = false.
Proof.
  split.
  - intros H. destruct (existsb is_digit p) eqn:E; trivial.
    apply existsb_piece in E. destruct E as (pre & c & post & Hs & Hc).
    exfalso. apply (search_none _ _ H pre [c] post Hs).
    apply digit_matches_number, Hc.
  - intros H. destruct (search number_re p) as [[m rest] | ] eqn:E; trivial.
    apply search_some in E. destruct E as (pre & Hs & Hm & _).
    apply matches_number in Hm.
    destruct Hm as (ds & sep & ds2 & -> & Hne & Hd & _).
    destruct ds as [ | d ds]; [congruence | ].
    simpl in Hd. apply andb_true_iff in Hd. destruct Hd as [Hd _].
    rewrite Hs in H. rewrite existsb_app in H. simpl in H.
    rewrite Hd in H. simpl in H. rewrite orb_true_r in H. discriminate.
Qed.

Lemma number_of_part_iff p :
  number_of_part p = None <-> existsb is_digit p = false.
Proof.
  rewrite <- strip_digits, <- search_number_iff.
  unfold number_of_part.
  destruct (strip p) as [ | c q] eqn:Es; [tauto | ].
  destruct (search number_re (c :: q)) as [[num_s rest] | ] eqn:E; [ | tauto].
  destruct (number_of_part_found p num_s rest) as (x & Hx).
  - rewrite Es. discriminate.
  - rewrite Es. exact E.
  - unfold number_of_part in Hx. rewrite Es, E in Hx. rewrite Hx.
    split; discriminate.
Qed.

Lemma extract_nums_nil parts :
  extract_nums parts = [] <-> existsb (existsb is_digit) parts = false.
Proof.
  induction parts as [ | p ps IH]; simpl; [tauto | ].
  rewrite orb_false_iff, <- IH, <- number_of_part_iff.
  destruct (number_of_part p); split; try discriminate; try tauto.
  intros [H _]. discriminate.
Qed.

Lemma numbers_of_nil raw :
  numbers_of raw = [] <-> existsb is_digit raw = false.
Proof.
  unfold numbers_of. rewrite extract_nums_nil, split_exists.
  - rewrite normalized_digits. tauto.
  - apply range_sep_without_digit.
Qed.

(** X1: a text without negotiable marker is parsed to the absent value
    exactly when it holds no ASCII digit; any digit gives a number. *)
Theorem price_absent_iff_no_digit lower s :
  has_negotiable_marker (lower (strip s)) = false ->
  (parse_price_to_million lower (VStr s) = Ret None
   <-> existsb is_digit s = false).
Proof.
  intros Hm. rewrite parse_price_cases, Hm, <- (strip_digits s).
  destruct (strip s) as [ | c raw] eqn:Es; [simpl; tauto | ].
  simpl eqb_str. cbv iota. rewrite <- numbers_of_nil.
  destruct (numbers_of (c :: raw)); split; trivial; discriminate.
Qed.

Lemma price_absent_iff_no_digit_witness :
  has_negotiable_marker (lower_latin (strip (utf8 "Liên hệ"))) = false
  /\ (parse_price_to_million lower_latin (VStr (utf8 "Liên hệ")) = Ret None
      <-> existsb is_digit (utf8 "Liên hệ") = false).
Proof.
  split; [reflexivity | ].
  apply (price_absent_iff_no_digit lower_latin (utf8 "Liên hệ")).
  reflexivity.
Defined.

(** X2: whenever the number pattern finds a match in a piece, [float]
    converts it: the [except] branch of the loop is never taken, and the
    piece contributes a non-negative number. *)
Theorem float_never_fails p num_s rest :
  search number_re (strip p) = Some (num_s, rest) ->
  exists x,
    of_decimal (decimal_text num_s) = Some x
    /\ number_of_part p = Some x
    /\ nonneg x = true.
Proof.
  intros H.
  assert (strip p <> []) as Hne.
  { intros E. rewrite E in H. vm_compute in H. discriminate. }
  destruct (number_of_part_found p num_s rest Hne H) as (x & Hx).
  exists x. pose proof Hx as Hx'. unfold number_of_part in Hx'.
  rewrite H in Hx'. destruct (strip p); [congruence | ].
  repeat split; trivial. eapply number_of_part_nonneg, Hx.
Qed.

Lemma float_never_fails_witness :
  search number_re (strip (utf8 " 12,5  ỷ"))
    = Some (utf8 "12,5", utf8 "  ỷ")
  /\ exists x,
       of_decimal (decimal_text (utf8 "12,5")) = Some x
       /\ number_of_part (utf8 " 12,5  ỷ") = Some x
       /\ nonneg x = true.
Proof.
  split; [vm_compute; reflexivity | ].
  apply (float_never_fails (utf8 " 12,5  ỷ") (utf8 "12,5") (utf8 "  ỷ")).
  vm_compute; reflexivity.
Defined.

(** X3: the text the number pattern extracts holds at most one separator,
    so a comma in it is always turned into the decimal point; commas are
    never dropped as thousands separators. *)
Theorem comma_is_decimal_point p num_s rest :
  search number_re p = Some (num_s, rest) ->
  (count_char comma num_s + count_char dot num_s <= 1)%nat
  /\ decimal_text num_s = replace_char comma [dot] num_s.
Proof.
  intros H. apply search_some in H. destruct H as (pre & _ & Hm & _).
  apply matches_number in Hm.
  destruct Hm as (ds & sep & ds2 & -> & Hne & Hd & Hsep & Hd2).
  unfold decimal_text.
  rewrite !count_char_app, !replace_char_app.
  rewrite !(digits_count ds), !(digits_count ds2) by auto.
  rewrite !(digits_replace ds), !(digits_replace ds2) by auto.
  destruct Hsep as [-> | [-> | ->]]; split; simpl; trivial; lia.
Qed.

Lemma comma_is_decimal_point_witness :
  search number_re (utf8 "1,234,567")
    = Some (utf8 "1,234", utf8 ",567")
  /\ (count_char comma (utf8 "1,234") + count_char dot (utf8 "1,234")
      <= 1)%nat
  /\ decimal_text (utf8 "1,234") = replace_char comma [dot] (utf8 "1,234").
Proof.
  split; [vm_compute; reflexivity | ].
  apply (comma_is_decimal_point (utf8 "1,234,567") (utf8 "1,234")
           (utf8 ",567")).
  vm_compute; reflexivity.
Defined.

(** *** Unit words are substrings *)

Lemma found_ty low :
  found ty_re low
  = contains (utf8 "ty") low || contains [116; 7925]%N low
    || contains (utf8 "tỷ") low.
Proof.
  unfold ty_re. rewrite !found_Alt, !found_Lit, orb_assoc. reflexivity.
Qed.

Lemma matches_trieu m :
  matches (Cat (Lit (utf8 "tri"))
               (Cat (Cls (fun c => mem_char c (utf8 "eê"))) (Lit (utf8 "u"))))
          m
  <-> m = utf8 "trieu" \/ m = utf8 "triêu".
Proof.
  split.
  - intros H. apply matches_cat_inv in H. destruct H as (a & b & -> & Ha & Hb).
    apply matches_Lit in Ha. subst.
    apply matches_cat_inv in Hb. destruct Hb as (v & u & -> & Hv & Hu).
    apply matches_Lit in Hu. subst.
    apply matches_cls_inv in Hv. destruct Hv as (c & -> & Hc).
    unfold mem_char in Hc. simpl in Hc.
    apply orb_true_iff in Hc. destruct Hc as [E | Hc].
    + apply N.eqb_eq in E. subst. left. reflexivity.
    + apply orb_true_iff in Hc. destruct Hc as [E | E]; [ | discriminate].
      apply N.eqb_eq in E. subst. right. reflexivity.
  - intros [-> | ->].
    + apply (M_Cat _ _ (utf8 "tri") (utf8 "eu")).
      * apply matches_Lit. reflexivity.
      * apply (M_Cat _ _ (utf8 "e") (utf8 "u")).
        -- constructor. reflexivity.
        -- apply matches_Lit. reflexivity.
    + apply (M_Cat _ _ (utf8 "tri") (utf8 "êu")).
      * apply matches_Lit. reflexivity.
      * apply (M_Cat _ _ (utf8 "ê") (utf8 "u")).
        -- constructor. reflexivity.
        -- apply matches_Lit. reflexivity.
Qed.

Lemma found_trieu low :
  found trieu_re low
  = contains (utf8 "trieu") low || contains (utf8 "triêu") low.
Proof.
  unfold trieu_re. rewrite found_Alt, found_Lit.
  assert (found (Cat (Lit (utf8 "tri"))
                     (Cat (Cls (fun c => mem_char c (utf8 "eê")))
                          (Lit (utf8 "u")))) low
          = contains (utf8 "trieu") low || contains (utf8 "triêu") low) as ->.
  { apply eq_true_iff_eq.
    rewrite found_iff, orb_true_iff, !contains_spec. unfold piece_of. split.
    - intros (pre & m & post & Hs & Hm). apply matches_trieu in Hm.
      destruct Hm as [-> | ->]; [left | right]; eauto.
    - intros [(pre & post & Hs) | (pre & post & Hs)].
      + exists pre, (utf8 "trieu"), post. split; trivial.
        apply matches_trieu. auto.
      + exists pre, (utf8 "triêu"), post. split; trivial.
        apply matches_trieu. auto. }
  destruct (contains (utf8 "trieu") low), (contains (utf8 "triêu") low);
    reflexivity.
Qed.

(** X4: the unit is decided by substrings of the lowercased text, whatever
    the numbers are: with the letters "ty", "tỵ" or "tỷ" anywhere in it the
    mean of the numbers is multiplied by 1000; without them, with "triệu"
    (in either spelling), "trieu" or "triêu" anywhere in it, the mean is
    returned as it is. *)
Theorem unit_word_decides lower s :
  strip s <> [] ->
  has_negotiable_marker (lower (strip s)) = false ->
  numbers_of (strip s) <> [] ->
  (contains (utf8 "ty") (lower (strip s))
   || contains [116; 7925]%N (lower (strip s))
   || contains (utf8 "tỷ") (lower (strip s)) = true ->
   parse_price_to_million lower (VStr s)
   = Ret (Some (mul (mean (numbers_of (strip s))) (of_Z 1000))))
  /\ (contains (utf8 "ty") (lower (strip s))
      || contains [116; 7925]%N (lower (strip s))
      || contains (utf8 "tỷ") (lower (strip s)) = false ->
      has_trieu (lower (strip s))
      || contains (utf8 "triêu") (lower (strip s)) = true ->
      parse_price_to_million lower (VStr s)
      = Ret (Some (mean (numbers_of (strip s))))).
Proof.
  intros Hne Hm Hnums. rewrite parse_price_cases, Hm.
  destruct (strip s) as [ | c raw] eqn:Es; [congruence | ].
  simpl eqb_str. cbv iota.
  destruct (numbers_of (c :: raw)) as [ | x xs] eqn:En; [congruence | ].
  unfold final_unit, detect_unit. rewrite <- found_ty. split.
  - intros ->. reflexivity.
  - intros -> Ht. destruct (has_trieu (lower (c :: raw))) eqn:E1; trivial.
    simpl in Ht. unfold infer_unit. rewrite found_trieu.
    unfold has_trieu in E1. apply orb_false_iff in E1.
    destruct E1 as [E1 _]. apply orb_false_iff in E1. destruct E1 as [_ E1].
    rewrite E1, Ht. reflexivity.
Qed.

Lemma unit_word_decides_witness :
  strip (utf8 "Quality 5") <> []
  /\ has_negotiable_marker (lower_latin (strip (utf8 "Quality 5"))) = false
  /\ numbers_of (strip (utf8 "Quality 5")) <> []
  /\ contains (utf8 "ty") (lower_latin (strip (utf8 "Quality 5"))) = true
  /\ parse_price_to_million lower_latin (VStr (utf8 "Quality 5"))
     = Ret (Some (mul (mean (numbers_of (strip (utf8 "Quality 5"))))
                      (of_Z 1000))).
Proof.
  assert (strip (utf8 "Quality 5") <> []) as H1 by discriminate.
  assert (has_negotiable_marker (lower_latin (strip (utf8 "Quality 5")))
          = false) as H2 by reflexivity.
  assert (numbers_of (strip (utf8 "Quality 5")) <> []) as H3
    by (vm_compute; discriminate).
  split; [exact H1 | ]. split; [exact H2 | ]. split; [exact H3 | ].
  split; [reflexivity | ].
  apply (proj1 (unit_word_decides lower_latin (utf8 "Quality 5") H1 H2 H3)).
  reflexivity.
Defined.

(** *** The allow-list and the range separators *)

Lemma normalized_kept raw : forallb kept (normalized raw) = true.
Proof.
  unfold normalized, strip.
  set (t := sub _ _ _).
  assert (forallb kept t = true) as Ht.
  { subst t. rewrite sub_cls. apply forallb_forall. intros c Hc.
    apply in_flat_map in Hc. destruct Hc as (x & _ & Hc).
    destruct (kept x) eqn:E; simpl in Hc.
    - destruct Hc as [<- | []]. exact E.
    - destruct Hc as [<- | []]. reflexivity. }
  destruct (strip_split is_space t) as (a & b & H & _).
  rewrite H, !forallb_app in Ht.
  apply andb_true_iff in Ht. destruct Ht as [_ Ht].
  apply andb_true_iff in Ht. tauto.
Qed.

Lemma match_at_range_sep t :
  forallb kept t = true -> match_at range_sep t = match_at hyphen_re t.
Proof.
  intros Hk. unfold match_at, range_sep, hyphen_re. cbn [rmatch].
  fold (rmatch (A:=str)).
  match goal with
  | |- match ?a with Some x => Some x | None => ?rest end = _ =>
    destruct a; trivial;
    assert (rest = None) as ->; trivial
  end.
  assert (forall r c,
             kept c = false ->
             (forall m, matches r m -> In c m) ->
             rmatch r t (fun rest => Some rest) = None) as Hdead.
  { intros r c Hc Hr.
    destruct (rmatch r t (fun rest => Some rest)) as [rest | ] eqn:E; trivial.
    apply rmatch_sound in E. destruct E as (m & b & -> & Hm & _).
    apply Hr in Hm. rewrite forallb_app in Hk.
    apply andb_true_iff in Hk. destruct Hk as [Hk _].
    rewrite forallb_forall in Hk. rewrite (Hk c Hm) in Hc. discriminate. }
  change (match rmatch (Cat (Cls is_space)
                            (Cat (Lit (utf8 "to")) (Cls is_space))) t
                  (fun rest => Some rest) with
          | Some x => Some x
          | None => rmatch (Cat (Cls is_space)
                                (Cat (Chr 8211%N) (Cls is_space))) t
                      (fun rest => Some rest)
          end = None).
  rewrite (Hdead _ 111%N), (Hdead _ 8211%N); trivial.
  - intros m H. apply matches_cat_inv in H.
    destruct H as (a & b & -> & Ha & Hb).
    apply matches_cat_inv in Hb. destruct Hb as (u & v & -> & Hu & Hv).
    apply matches_cls_inv in Hu. destruct Hu as (c & -> & Hc).
    apply N.eqb_eq in Hc. subst.
    apply in_or_app. right. left. reflexivity.
  - intros m H. apply matches_cat_inv in H.
    destruct H as (a & b & -> & Ha & Hb).
    apply matches_cat_inv in Hb. destruct Hb as (u & v & -> & Hu & Hv).
    apply matches_Lit in Hu. subst.
    apply in_or_app. right. simpl. auto.
Qed.

(** X14: after the normalization the text holds allow-listed characters
    only, so the alternatives " to " and " – " of the range pattern never
    match: the pieces are those cut by the hyphen alone. *)
Theorem only_hyphen_splits raw :
  forallb kept (normalized raw) = true
  /\ split range_sep (normalized raw) = split hyphen_re (normalized raw)
  /\ numbers_of raw = extract_nums (split hyphen_re (normalized raw)).
Proof.
  pose proof (normalized_kept raw) as Hk.
  assert (split range_sep (normalized raw)
          = split hyphen_re (normalized raw)) as Hs.
  { unfold split. apply split_go_ext. intros pre t Ht.
    apply match_at_range_sep. rewrite Ht, forallb_app in Hk.
    apply andb_true_iff in Hk. tauto. }
  repeat split; trivial. unfold numbers_of. rewrite Hs. reflexivity.
Qed.

(** *** White space around the text, and the unit when no word gives it *)

Lemma strip_idempotent s : strip (strip s) = strip s.
Proof. unfold strip. apply strip_fixed, strip_ends_free. Qed.

(** X15: white space around the price text does not change the result. *)
Theorem parse_price_ignores_outer_space lower s :
  parse_price_to_million lower (VStr (strip s))
  = parse_price_to_million lower (VStr s).
Proof. rewrite !parse_price_cases, strip_idempotent. reflexivity. Qed.

(** X16: when the lowercased text holds no unit word, the unit follows
    from the size of the numbers alone: the billion when every number is at
    most 1000, the million as soon as one number exceeds 1000; the test on
    a standalone "t" never changes the outcome. *)
Theorem unit_from_magnitude lower s :
  strip s <> [] ->
  has_negotiable_marker (lower (strip s)) = false ->
  unit_word_detected (lower (strip s)) = false ->
  numbers_of (strip s) <> [] ->
  parse_price_to_million lower (VStr s)
  = Ret (Some (to_million
                 (if forallb (fun x => leb x (of_Z 1000))
                             (numbers_of (strip s))
                  then Ty else Trieu)
                 (mean (numbers_of (strip s))))).
Proof.
  intros Hne Hm Hu Hnums.
  rewrite parse_price_cases, Hm.
  rewrite <- (infer_unit_rule (lower (strip s)) (numbers_of (strip s)));
    trivial; [ | apply extract_nums_nonneg].
  unfold final_unit, detect_unit.
  pose proof Hu as Hu'. unfold unit_word_detected in Hu'.
  apply orb_false_iff in Hu'. destruct Hu' as [Hu' _].
  apply orb_false_iff in Hu'. destruct Hu' as [-> ->].
  destruct (strip s) as [ | c raw]; [congruence | ]. simpl eqb_str. cbv iota.
  destruct (numbers_of (c :: raw)); [congruence | reflexivity].
Qed.

Lemma unit_from_magnitude_witness :
  strip (utf8 "1500 - 2") <> []
  /\ has_negotiable_marker (lower_latin (strip (utf8 "1500 - 2"))) = false
  /\ unit_word_detected (lower_latin (strip (utf8 "1500 - 2"))) = false
  /\ numbers_of (strip (utf8 "1500 - 2")) <> []
  /\ parse_price_to_million lower_latin (VStr (utf8 "1500 - 2"))
     = Ret (Some (to_million
                    (if forallb (fun x => leb x (of_Z 1000))
                                (numbers_of (strip (utf8 "1500 - 2")))
                     then Ty else Trieu)
                    (mean (numbers_of (strip (utf8 "1500 - 2")))))).
Proof.
  assert (strip (utf8 "1500 - 2") <> []) as H1 by discriminate.
  assert (has_negotiable_marker (lower_latin (strip (utf8 "1500 - 2")))
          = false) as H2 by reflexivity.
  assert (unit_word_detected (lower_latin (strip (utf8 "1500 - 2")))
          = false) as H3 by reflexivity.
  assert (numbers_of (strip (utf8 "1500 - 2")) <> []) as H4
    by (vm_compute; discriminate).
  split; [exact H1 | ]. split; [exact H2 | ]. split; [exact H3 | ].
  split; [exact H4 | ].
  exact (unit_from_magnitude lower_latin (utf8 "1500 - 2") H1 H2 H3 H4).
Defined.

(** A number returned by the parser is not NaN. *)
Lemma parsed_number_nonneg lower v x :
  parse_price_to_million lower v = Ret (Some x) -> nonneg x = true.
Proof.
  destruct v as [s | y | ]; try discriminate.
  rewrite parse_price_cases.
  destruct (eqb_str (strip s) []); [discriminate | ].
  destruct (has_negotiable_marker _); [discriminate | ].
  destruct (numbers_of (strip s)) as [ | n ns] eqn:E; [discriminate | ].
  intros [= <-]. apply to_million_nonneg, mean_nonneg; [discriminate | ].
  rewrite <- E. apply extract_nums_nonneg.
Qed.

(** The parser raises on a cell exactly when its text is not blank and
    carries a negotiable marker. *)
Lemma parse_cell_raises lower (c : option str) e :
  parse_price_to_million lower
    (match c with Some s => VStr s | None => VFloat nan end) = Raise e
  <-> exists s, c = Some s /\ strip s <> []
                /\ has_negotiable_marker (lower (strip s)) = true.
Proof.
  destruct c as [s | ]; cbv beta iota.
  - rewrite parse_price_cases.
    destruct (strip s) as [ | d raw] eqn:Es; simpl.
    + split; [discriminate | ]. intros (s' & [= <-] & Hne & _).
      congruence.
    + destruct (has_negotiable_marker (lower (d :: raw))) eqn:Em.
      * split; [ | destruct e; reflexivity].
        intros _. exists s. rewrite Es. repeat split; trivial. discriminate.
      * split.
        -- destruct (numbers_of (d :: raw)); discriminate.
        -- intros (s' & [= <-] & _ & Hm). rewrite Es in Hm. congruence.
  - split; [discriminate | ]. intros (s & H & _). discriminate.
Qed.

End PriceMore.

(** ** Floats below a power of two

    Rounding, division and the factor 1000 on magnitudes that stay under
    the overflow threshold of binary64. *)

Module FloatRange.
Import FloatFacts Magnitude.
Local Open Scope Z_scope.

Lemma digits2_pos_size p : digits2_pos p = Pos.size p.
Proof. induction p; simpl; congruence. Qed.

Lemma Zdigits2_nonneg m : 0 <= Zdigits2 m.
Proof. destruct m; simpl; lia. Qed.

Lemma Zdigits2_upper m : 0 <= m -> m < 2 ^ Zdigits2 m.
Proof.
  destruct m as [ | p | p]; intros H; try lia.
  - simpl. lia.
  - cbn [Zdigits2]. rewrite digits2_pos_size.
    pose proof (Pos.size_gt p) as Hp.
    rewrite <- Pos2Z.inj_pow. lia.
Qed.

Lemma Zdigits2_lower p : 2 ^ (Zpos (digits2_pos p) - 1) <= Zpos p.
Proof.
  rewrite digits2_pos_size.
  pose proof (Pos.size_le p) as Hp.
  assert (2 ^ Zpos (Pos.size p) <= 2 * Zpos p) as H.
  { rewrite <- Pos2Z.inj_pow. lia. }
  replace (Zpos (Pos.size p)) with (Z.succ (Zpos (Pos.size p) - 1)) in H by lia.
  rewrite Z.pow_succ_r in H by lia. lia.
Qed.

Lemma Zdigits2_le m k : 0 <= m -> 0 <= k -> m < 2 ^ k -> Zdigits2 m <= k.
Proof.
  intros Hm Hk H. destruct m as [ | p | p]; try lia; cbn [Zdigits2]; try lia.
  pose proof (Zdigits2_lower p) as Hl.
  destruct (Z.le_gt_cases (Zpos (digits2_pos p)) k) as [ | Hgt]; trivial.
  assert (2 ^ k <= 2 ^ (Zpos (digits2_pos p) - 1)) by (apply Z.pow_le_mono_r; lia).
  lia.
Qed.

Lemma fexp_eq x : fexp prec emax x = Z.max (x - 53) (-1074).
Proof. reflexivity. Qed.

Lemma shr_1_digits mrs :
  0 <= shr_m mrs ->
  Zdigits2 (shr_m (shr_1 mrs)) = Z.max 0 (Zdigits2 (shr_m mrs) - 1).
Proof.
  destruct mrs as [m r s]. cbn [shr_m].
  destruct m as [ | [p | p | ] | p]; cbn [shr_1 shr_m Zdigits2 digits2_pos];
    intros; lia.
Qed.

Lemma iter_shr_1_digits n :
  forall mrs,
    0 <= shr_m mrs ->
    0 <= shr_m (iter_pos shr_1 n mrs)
    /\ Zdigits2 (shr_m (iter_pos shr_1 n mrs))
       = Z.max 0 (Zdigits2 (shr_m mrs) - Zpos n).
Proof.
  induction n as [n IH | n IH | ]; intros mrs H; cbn [iter_pos].
  - pose proof (shr_1_nonneg mrs H) as H1.
    pose proof (shr_1_digits mrs H) as D1.
    destruct (IH _ H1) as [H2 D2]. destruct (IH _ H2) as [H3 D3].
    split; trivial. rewrite D3, D2, D1. lia.
  - destruct (IH _ H) as [H2 D2]. destruct (IH _ H2) as [H3 D3].
    split; trivial. rewrite D3, D2. lia.
  - split; [apply shr_1_nonneg, H | ]. rewrite shr_1_digits by trivial. lia.
Qed.

(** The first step of rounding: the exponent is raised to the one the
    format prescribes, and the magnitude does not grow. *)
Lemma shr_fexp_bound m e l :
  0 <= m ->
  0 <= shr_m (fst (shr_fexp prec emax m e l))
  /\ snd (shr_fexp prec emax m e l) = Z.max e (fexp prec emax (Zdigits2 m + e))
  /\ Zdigits2 (shr_m (fst (shr_fexp prec emax m e l)))
     + snd (shr_fexp prec emax m e l)
     <= Z.max (Zdigits2 m + e) (snd (shr_fexp prec emax m e l)).
Proof.
  intros Hm. unfold shr_fexp, shr.
  destruct (fexp prec emax (Zdigits2 m + e) - e) as [ | p | p] eqn:En;
    cbn [fst snd]; rewrite ?shr_record_of_loc_m; try lia.
  destruct (iter_shr_1_digits p (shr_record_of_loc m l)) as [H D].
  { rewrite shr_record_of_loc_m. exact Hm. }
  rewrite shr_record_of_loc_m in D. rewrite D. lia.
Qed.

Lemma round_nearest_even_le m l : round_nearest_even m l <= m + 1.
Proof.
  destruct l as [ | []]; simpl; try lia. destruct (Z.even m); lia.
Qed.

(** Rounding a magnitude below [2^K] gives a finite float below
    [2^(K+1)], as long as [K] is below the largest exponent. *)
Lemma binary_round_aux_below s m e l K :
  0 <= m -> e <= 971 -> Zdigits2 m + e <= K -> e <= K ->
  -1074 <= K -> K <= 1023 ->
  below_pow2 (K + 1) (binary_round_aux prec emax s m e l) = true.
Proof.
  intros Hm He Hd HeK HK1 HK2. unfold binary_round_aux.
  destruct (shr_fexp_bound m e l Hm) as (H1 & E1 & D1).
  destruct (shr_fexp prec emax m e l) as [mrs' e']. cbn [fst snd] in *.
  pose proof (round_nearest_even_nonneg _ (loc_of_shr_record mrs') H1) as R1.
  pose proof (round_nearest_even_le (shr_m mrs') (loc_of_shr_record mrs')) as R2.
  set (m'' := round_nearest_even (shr_m mrs') (loc_of_shr_record mrs')) in *.
  assert (Zdigits2 m'' <= Zdigits2 (shr_m mrs') + 1) as R3.
  { pose proof (Zdigits2_nonneg (shr_m mrs')).
    apply Zdigits2_le; trivial; try lia.
    pose proof (Zdigits2_upper (shr_m mrs') H1).
    rewrite Z.pow_add_r by lia. lia. }
  destruct (shr_fexp_bound m'' e' loc_Exact R1) as (H2 & E2 & D2).
  destruct (shr_fexp prec emax m'' e' loc_Exact) as [mrs'' e''].
  cbn [fst snd] in *. rewrite fexp_eq in *.
  destruct (shr_m mrs'') as [ | p | p] eqn:Em; try lia; [reflexivity | ].
  assert (e'' <= 971) as He'' by lia.
  destruct (Z.leb_spec e'' (emax - prec)) as [ | Hgt];
    [ | unfold emax, prec in Hgt; lia].
  cbn [below_pow2 Zdigits2] in *.
  apply andb_true_iff. split; apply Z.leb_le; lia.
Qed.

(** The float nearest to a fraction below [2^K] *)
Lemma of_ratio_below n d K :
  0 <= n -> 0 <= K -> K <= 1023 -> n < 2 ^ K * Zpos d ->
  below_pow2 (K + 1) (of_ratio n d) = true.
Proof.
  intros Hn HK0 HK1 Hlt. destruct n as [ | p | p]; try lia; [reflexivity | ].
  unfold of_ratio, div, SFdiv, SFdiv_core_binary.
  set (e' := Z.min _ _).
  assert (e' <= 0) as He' by (subst e'; lia).
  set (m' := match _ with Zpos _ => _ | Z0 => _ | Zneg _ => _ end).
  assert (m' = Zpos p * 2 ^ (- e')) as Em'.
  { subst m'. replace (0 - 0 - e') with (- e') by lia.
    destruct (- e') as [ | k | k] eqn:Ek; try lia.
    apply Z.shiftl_mul_pow2. lia. }
  destruct (Z.div_eucl m' (Zpos d)) as [q r] eqn:E.
  assert (q = m' / Zpos d) as Eq by (unfold Z.div; rewrite E; reflexivity).
  assert (0 < 2 ^ (- e')) as Hpow by (apply Z.pow_pos_nonneg; lia).
  assert (0 <= q) as Hq.
  { rewrite Eq. apply Z.div_pos; lia. }
  assert (q < 2 ^ (K - e')) as Hq'.
  { rewrite Eq. apply Z.div_lt_upper_bound; [lia | ].
    replace (K - e') with (K + - e') by lia.
    rewrite Z.pow_add_r by lia. rewrite Em'. nia. }
  apply binary_round_aux_below; trivial; try lia.
  apply Zdigits2_le in Hq'; lia.
Qed.

Lemma below_pow2_finite K x : below_pow2 K x = true -> is_finite x = true.
Proof. destruct x; trivial; discriminate. Qed.

Lemma below_pow2_mono K K' x :
  K <= K' -> below_pow2 K x = true -> below_pow2 K' x = true.
Proof.
  intros HK. destruct x as [s | s | | s m e]; trivial. cbn [below_pow2].
  rewrite !andb_true_iff, !Z.leb_le. lia.
Qed.

Lemma mul_digits a b :
  Zdigits2 (Zpos (a * b)) <= Zpos (digits2_pos a) + Zpos (digits2_pos b).
Proof.
  apply Zdigits2_le; try lia.
  pose proof (Zdigits2_upper (Zpos a)) as Ha.
  pose proof (Zdigits2_upper (Zpos b)) as Hb.
  cbn [Zdigits2] in Ha, Hb.
  rewrite Z.pow_add_r by lia. rewrite Pos2Z.inj_mul.
  apply Z.mul_lt_mono_nonneg; lia.
Qed.

(** The factor of the billion: a value below [2^K] times 1000 *)
Lemma mul_1000_below x K :
  below_pow2 K x = true -> -1084 <= K -> K <= 1013 ->
  below_pow2 (K + 11) (mul x (of_Z 1000)) = true.
Proof.
  destruct x as [s | s | | s m e]; try discriminate; intros H HK0 HK1.
  - reflexivity.
  - change (of_Z 1000) with (S754_finite false 8796093022208000 (-43)).
    unfold mul. cbn [SFmul].
    cbn [below_pow2] in H. apply andb_true_iff in H.
    rewrite !Z.leb_le in H. destruct H as [He Hd].
    pose proof (mul_digits m 8796093022208000) as Hm.
    change (Zpos (digits2_pos 8796093022208000)) with 53 in Hm.
    replace (K + 11) with (K + 10 + 1) by lia.
    apply binary_round_aux_below; lia.
Qed.

Lemma to_Q_le x K :
  0 <= K -> nonneg x = true -> below_pow2 K x = true ->
  Qle (to_Q x) (inject_Z (2 ^ K)).
Proof.
  intros HK Hx Hb. apply nonneg_cases in Hx.
  assert (0 < 2 ^ K) as HpK by (apply Z.pow_pos_nonneg; lia).
  destruct Hx as [[s ->] | [-> | (m & e & ->)]]; try discriminate.
  - unfold Qle. simpl. lia.
  - cbn [below_pow2] in Hb. apply andb_true_iff in Hb.
    rewrite !Z.leb_le in Hb. destruct Hb as [_ Hd].
    pose proof (Zdigits2_upper (Zpos m)) as Hm. cbn [Zdigits2] in Hm.
    destruct e as [ | k | k]; unfold Qle; cbn [to_Q Qnum Qden inject_Z].
    + assert (2 ^ Zpos (digits2_pos m) <= 2 ^ K)
        by (apply Z.pow_le_mono_r; lia).
      lia.
    + change (Z.pow_pos 2 k) with (2 ^ Zpos k).
      assert (2 ^ (Zpos (digits2_pos m) + Zpos k) <= 2 ^ K) as Hle
        by (apply Z.pow_le_mono_r; lia).
      rewrite Z.pow_add_r in Hle by lia.
      assert (0 < 2 ^ Zpos k) by (apply Z.pow_pos_nonneg; lia).
      nia.
    + rewrite Pos2Z.inj_pow.
      assert (2 ^ Zpos (digits2_pos m) <= 2 ^ (K + Zpos k)) as Hle
        by (apply Z.pow_le_mono_r; lia).
      rewrite Z.pow_add_r in Hle by lia. lia.
Qed.

Lemma sum_le qs B :
  Forall (fun q => Qle q B) qs ->
  forall acc A,
    Qle acc A ->
    Qle (fold_left Qplus qs acc)
        (Qplus A (Qmult (inject_Z (Z.of_nat (List.length qs))) B)).
Proof.
  induction 1 as [ | q qs Hq _ IH]; intros acc A Hacc; cbn [fold_left List.length].
  - assert (Qeq (Qplus A (Qmult (inject_Z (Z.of_nat 0)) B)) A) as -> by (simpl; ring).
    exact Hacc.
  - specialize (IH (Qplus acc q) (Qplus A B) (Qplus_le_compat _ _ _ _ Hacc Hq)).
    assert (Qeq (Qplus A (Qmult (inject_Z (Z.of_nat (S (List.length qs)))) B))
                (Qplus (Qplus A B) (Qmult (inject_Z (Z.of_nat (List.length qs))) B)))
      as ->.
    { rewrite Nat2Z.inj_succ. unfold Z.succ. rewrite inject_Z_plus. ring. }
    exact IH.
Qed.

(** The mean of numbers below [2^K] *)
Lemma mean_below xs K :
  xs <> [] -> 0 <= K -> K <= 1021 ->
  Forall (fun x => nonneg x = true) xs ->
  Forall (fun x => below_pow2 K x = true) xs ->
  below_pow2 (K + 2) (mean xs) = true.
Proof.
  intros Hne HK0 HK1 Hnn Hb. unfold mean.
  assert (forallb is_finite xs = true) as ->.
  { apply forallb_forall. rewrite Forall_forall in Hb.
    intros x Hx. eapply below_pow2_finite; eauto. }
  set (total := fold_left Qplus (map to_Q xs) (Qmake 0 1)).
  set (count := Qmake (Z.of_nat (List.length xs)) 1).
  assert (0 < Z.of_nat (List.length xs)) as Hlen.
  { destruct xs; [congruence | ]. cbn [List.length]. lia. }
  assert (0 <= Qnum total) as Ht.
  { apply Qnum_sum_nonneg; [simpl; lia | ].
    apply Forall_forall. intros q Hq. apply in_map_iff in Hq.
    destruct Hq as (a & <- & Ha). apply to_Q_nonneg.
    rewrite Forall_forall in Hnn. auto. }
  assert (Qle total (Qmult (inject_Z (2 ^ K)) count)) as Hsum.
  { assert (Forall (fun q => Qle q (inject_Z (2 ^ K))) (map to_Q xs)) as HB.
    { apply Forall_forall. intros q Hq. apply in_map_iff in Hq.
      destruct Hq as (a & <- & Ha). rewrite Forall_forall in Hnn, Hb.
      apply to_Q_le; auto. }
    pose proof (sum_le _ _ HB (Qmake 0 1) (Qmake 0 1) (Qle_refl _)) as H.
    rewrite length_map in H. fold total in H.
    eapply Qle_trans; [exact H | ].
    apply Qle_lteq. right. unfold count. change (Qmake ?z 1) with (inject_Z z).
    ring. }
  assert (Qlt (Qmake 0 1) count) as Hc by (unfold Qlt, count; simpl; lia).
  pose proof (Qle_shift_div_r _ _ _ Hc Hsum) as Hq.
  set (q := Qdiv total count) in *.
  assert (0 <= Qnum q) as Hq0.
  { subst q count. unfold Qdiv, Qinv. cbn [Qnum].
    destruct (Z.of_nat (List.length xs)) eqn:E; try lia.
    simpl. nia. }
  unfold of_Q. replace (K + 2) with (K + 1 + 1) by lia.
  apply of_ratio_below; trivial; try lia.
  unfold Qle in Hq. cbn [inject_Z Qnum Qden] in Hq.
  rewrite Z.pow_add_r by lia.
  assert (0 < 2 ^ K) by (apply Z.pow_pos_nonneg; lia).
  nia.
Qed.

End FloatRange.

(** ** The range of the parsed price *)

Module PriceRange.
Import Shape ReFacts StrFacts ReMore FloatFacts Magnitude FloatRange.
Import Price PriceFacts PriceMore Spec.

Lemma pow10_Z n : Zpos (pow10 n) = (10 ^ Z.of_nat n)%Z.
Proof.
  induction n as [ | n IH]; trivial.
  cbn [pow10]. rewrite Pos2Z.inj_mul, IH, Nat2Z.inj_succ, Z.pow_succ_r by lia.
  reflexivity.
Qed.

Lemma digit_value c : is_digit c = true -> (c - 48 <= 9)%N.
Proof.
  unfold is_digit. intros H. apply andb_true_iff in H.
  destruct H as [_ H]. apply N.leb_le in H. lia.
Qed.

(** The digits read continue [acc] by a number below [10^n]. *)
Lemma read_digits_bound s :
  forall acc v n rest,
    read_digits acc s = (v, n, rest) ->
    (Z.of_N v < (Z.of_N acc + 1) * 10 ^ Z.of_nat n)%Z
    /\ (n <= List.length s)%nat.
Proof.
  induction s as [ | c s IH]; intros acc v n rest; cbn [read_digits].
  - intros [= <- <- <-]. simpl. lia.
  - destruct (is_digit c) eqn:Ec.
    + destruct (read_digits (acc * 10 + (c - 48))%N s) as [[v' n'] rest'] eqn:E.
      intros [= <- <- <-]. destruct (IH _ _ _ _ E) as [Hv Hn].
      split; [ | cbn [List.length]; lia].
      apply digit_value in Ec.
      rewrite Nat2Z.inj_succ, Z.pow_succ_r by lia.
      assert (0 < 10 ^ Z.of_nat n')%Z by (apply Z.pow_pos_nonneg; lia).
      nia.
    + intros [= <- <- <-]. simpl. lia.
Qed.

Lemma pow10_300 : (10 ^ 300 <= 2 ^ 997)%Z.
Proof. apply Z.leb_le. vm_compute. reflexivity. Qed.

Lemma pow10_le n : (n <= 300)%nat -> (10 ^ Z.of_nat n <= 2 ^ 997)%Z.
Proof.
  intros H. eapply Z.le_trans; [ | apply pow10_300].
  apply Z.pow_le_mono_r; lia.
Qed.

(** [float] of a decimal text of at most 300 characters is below
    [2^998]. *)
Lemma of_decimal_below s x :
  of_decimal s = Some x -> (List.length s <= 300)%nat ->
  below_pow2 998 x = true.
Proof.
  unfold of_decimal. intros H Hlen.
  destruct (read_digits 0 s) as [[i ni] rest] eqn:E.
  destruct (read_digits_bound _ _ _ _ _ E) as [Hi Hni].
  pose proof (pow10_le ni ltac:(lia)) as Hp.
  destruct ni as [ | ni']; [discriminate | ].
  destruct rest as [ | c rest'].
  - injection H as <-. apply (of_ratio_below _ _ 997); lia.
  - destruct (eqb_char c 46%N); [ | discriminate].
    destruct (read_digits i rest') as [[v nf] rest''] eqn:E2.
    destruct rest''; [ | discriminate].
    injection H as <-.
    destruct (read_digits_bound _ _ _ _ _ E2) as [Hv _].
    apply (of_ratio_below _ _ 997); try lia.
    rewrite pow10_Z.
    assert (0 < 10 ^ Z.of_nat nf)%Z by (apply Z.pow_pos_nonneg; lia).
    nia.
Qed.

Lemma flat_map_short (f : char -> str) s :
  (forall c, (List.length (f c) <= 1)%nat) ->
  (List.length (flat_map f s) <= List.length s)%nat.
Proof.
  intros Hf. induction s as [ | c s IH]; trivial.
  cbn [flat_map]. rewrite length_app. specialize (Hf c).
  cbn [List.length]. lia.
Qed.

Lemma replace_char_short old new s :
  (List.length new <= 1)%nat ->
  (List.length (replace_char old new s) <= List.length s)%nat.
Proof.
  intros H. apply flat_map_short. intros c.
  destruct (eqb_char c old); trivial.
Qed.

Lemma decimal_text_short num_s :
  (List.length (decimal_text num_s) <= List.length num_s)%nat.
Proof.
  unfold decimal_text.
  destruct (_ && _); apply replace_char_short; cbn [List.length]; lia.
Qed.

Lemma strip_short s : (List.length (strip s) <= List.length s)%nat.
Proof.
  unfold strip. destruct (strip_split is_space s) as (a & b & H & _).
  rewrite H at 2. rewrite !length_app. lia.
Qed.

Lemma number_of_part_below p x :
  number_of_part p = Some x -> (List.length p <= 300)%nat ->
  below_pow2 998 x = true.
Proof.
  unfold number_of_part. intros H Hlen.
  pose proof (strip_short p) as Hs.
  destruct (strip p) as [ | c q]; [discriminate | ].
  destruct (search number_re (c :: q)) as [[num_s rest] | ] eqn:E;
    [ | discriminate].
  apply search_some in E. destruct E as (pre & E & _).
  apply of_decimal_below in H; trivial.
  pose proof (decimal_text_short num_s).
  apply (f_equal (@List.length char)) in E. rewrite !length_app in E. lia.
Qed.

Lemma extract_nums_below parts :
  Forall (fun p => (List.length p <= 300)%nat) parts ->
  Forall (fun x => below_pow2 998 x = true) (extract_nums parts).
Proof.
  induction 1 as [ | p ps Hp _ IH]; cbn [extract_nums]; [constructor | ].
  destruct (number_of_part p) as [x | ] eqn:E; trivial.
  constructor; trivial. eapply number_of_part_below; eauto.
Qed.

(** A piece of a split is not longer than the text. *)
Lemma split_go_short r s :
  forall skip cur p,
    In p (split_go r s skip cur) ->
    (List.length p <= List.length cur + List.length s)%nat.
Proof.
  induction s as [ | c s IH]; intros skip cur p; cbn [split_go].
  - intros [<- | []]. rewrite length_rev. lia.
  - cbn [List.length]. destruct skip as [ | n].
    + destruct (match_at r (c :: s)) as [rest | ].
      * destruct (_ - _)%nat.
        -- intros H. apply IH in H. cbn [List.length] in H. lia.
        -- intros [<- | H]; [rewrite length_rev; lia | ].
           apply IH in H. cbn [List.length] in H. lia.
      * intros H. apply IH in H. cbn [List.length] in H. lia.
    + intros H. apply IH in H. lia.
Qed.

Section Parser.
Variable lower : str -> str.

Lemma normalized_short raw :
  (List.length (normalized raw) <= List.length raw)%nat.
Proof.
  unfold normalized. eapply Nat.le_trans; [apply strip_short | ].
  rewrite sub_cls.
  eapply Nat.le_trans.
  { apply flat_map_short. intros c. destruct (negb (kept c)); trivial. }
  eapply Nat.le_trans; [apply replace_char_short; trivial | ].
  eapply Nat.le_trans; [apply replace_char_short; trivial | ].
  apply replace_char_short; trivial.
Qed.

Lemma numbers_of_below raw :
  (List.length raw <= 300)%nat ->
  Forall (fun x => below_pow2 998 x = true) (numbers_of raw).
Proof.
  intros Hlen. unfold numbers_of. apply extract_nums_below.
  apply Forall_forall. intros p Hp. unfold split in Hp.
  apply split_go_short in Hp. pose proof (normalized_short raw).
  cbn [List.length] in Hp. lia.
Qed.

(** C3, as amended: a value returned by the parser is absent or a
    non-negative float, never NaN; it is finite whenever the text has at
    most 300 characters. *)
Theorem price_nonneg_and_finite_if_short v r :
  parse_price_to_million lower v = Ret r ->
  absent_or_nonneg r = true
  /\ (forall s, v = VStr s -> (List.length s <= 300)%nat ->
      absent_or_nonneg_finite r = true).
Proof.
  intros H.
  assert (absent_or_nonneg r = true) as Hnn.
  { destruct r as [x | ]; [ | reflexivity].
    apply (parsed_number_nonneg lower v x H). }
  split; trivial. intros s -> Hlen.
  destruct r as [x | ]; [ | reflexivity].
  cbn [absent_or_nonneg absent_or_nonneg_finite] in *. rewrite Hnn.
  cbn [andb]. revert H. rewrite parse_price_cases.
  destruct (eqb_str (strip s) []); [discriminate | ].
  destruct (has_negotiable_marker _); [discriminate | ].
  destruct (numbers_of (strip s)) as [ | n ns] eqn:E; [discriminate | ].
  intros [= <-].
  assert (below_pow2 1000 (mean (n :: ns)) = true) as Hm.
  { apply (mean_below _ 998); try lia; [discriminate | | ].
    - rewrite <- E. apply extract_nums_nonneg.
    - rewrite <- E. apply numbers_of_below.
      pose proof (strip_short s). lia. }
  destruct (final_unit _ _); cbn [to_million].
  - apply (below_pow2_finite 1011), (mul_1000_below _ 1000); trivial; lia.
  - apply (below_pow2_finite 1000), Hm.
Qed.

End Parser.

Lemma price_nonneg_and_finite_if_short_witness :
  parse_price_to_million lower_latin (VStr (utf8 "12,5 Tỷ"))
    = Ret (Some (of_Z 12500))
  /\ absent_or_nonneg (Some (of_Z 12500)) = true
  /\ absent_or_nonneg_finite (Some (of_Z 12500)) = true.
Proof.
  split; [vm_compute; reflexivity | ].
  destruct (price_nonneg_and_finite_if_short lower_latin
              (VStr (utf8 "12,5 Tỷ")) (Some (of_Z 12500)))
    as [Hnn Hfin]; [vm_compute; reflexivity | ].
  split; [exact Hnn | ].
  apply (Hfin (utf8 "12,5 Tỷ") eq_refl).
  vm_compute. lia.
Defined.

(** With the word of the billion a run of 306 digits is enough for the
    float infinity. *)
Lemma price_of_306_nines_ty_is_infinite :
  parse_price_to_million lower_latin (VStr price_of_306_nines_ty)
  = Ret (Some pinf).
Proof. vm_compute. reflexivity. Qed.

End PriceRange.

(** ** Locations, districts and titles *)

Module LocationMore.
Import Shape ReFacts StrFacts ReMore District.

(** *** Collapsed white space *)

Lemma collapse_in_run p repl s :
  collapse_go p repl true s = collapse_go p repl false (lstrip_by p s).
Proof.
  induction s as [ | c s IH]; trivial.
  simpl. destruct (p c) eqn:E; trivial.
  simpl. rewrite E. reflexivity.
Qed.

Lemma collapse_single_spaced s :
  single_spaced (collapse_go is_space (utf8 " ") false s) = true
  /\ single_spaced (collapse_go is_space (utf8 " ") true s) = true
  /\ match collapse_go is_space (utf8 " ") true s with
     | [] => True
     | d :: _ => is_space d = false
     end.
Proof.
  induction s as [ | c s (IH0 & IH1 & IHh)]; [simpl; auto | ].
  cbn [collapse_go]. destruct (is_space c) eqn:E.
  - repeat split; trivial.
    change (utf8 " " ++ collapse_go is_space (utf8 " ") true s)
      with (32%N :: collapse_go is_space (utf8 " ") true s).
    cbn [single_spaced]. rewrite IH1.
    destruct (collapse_go is_space (utf8 " ") true s) as [ | d t].
    + reflexivity.
    + rewrite IHh. reflexivity.
  - cbn [single_spaced]. rewrite E, IH0. auto.
Qed.

Lemma single_spaced_app a b :
  single_spaced (a ++ b) = true ->
  single_spaced a = true /\ single_spaced b = true.
Proof.
  induction a as [ | c a IH]; [simpl; auto | ].
  cbn [app single_spaced]. intros H.
  apply andb_true_iff in H. destruct H as [Hc H].
  destruct (IH H) as [Ha Hb]. split; trivial.
  rewrite Ha, andb_true_r.
  destruct a as [ | d a']; [ | exact Hc].
  destruct (is_space c); trivial. simpl in *.
  apply andb_true_iff in Hc. destruct Hc as [-> _]. reflexivity.
Qed.

Lemma strip_single_spaced p s :
  single_spaced s = true -> single_spaced (strip_by p s) = true.
Proof.
  intros H. destruct (strip_split p s) as (a & b & Hs & _).
  rewrite Hs in H. apply single_spaced_app in H. destruct H as [_ H].
  apply single_spaced_app in H. tauto.
Qed.

(** In a single-spaced text the space is the only white space. *)
Lemma single_spaced_space_only s c :
  single_spaced s = true -> In c s -> is_space c = true -> c = 32%N.
Proof.
  induction s as [ | d s IH]; [intros _ [] | ].
  cbn [single_spaced]. intros H Hin Hc.
  apply andb_true_iff in H. destruct H as [Hd H].
  destruct Hin as [-> | Hin]; [ | auto].
  rewrite Hc in Hd. simpl in Hd.
  apply andb_true_iff in Hd. destruct Hd as [Hd _].
  apply N.eqb_eq in Hd. exact Hd.
Qed.

Lemma collapse_fixed s :
  single_spaced s = true -> collapse_go is_space (utf8 " ") false s = s.
Proof.
  induction s as [ | c s IH]; trivial.
  cbn [single_spaced collapse_go]. intros H.
  apply andb_true_iff in H. destruct H as [Hc H].
  destruct (is_space c) eqn:E.
  - simpl in Hc. apply andb_true_iff in Hc. destruct Hc as [Hc Hh].
    apply N.eqb_eq in Hc. subst c.
    rewrite collapse_in_run, lstrip_fixed, (IH H); trivial.
    destruct s; trivial. apply negb_true_iff, Hh.
  - rewrite (IH H). reflexivity.
Qed.

Lemma replace_absent old new s :
  existsb (eqb_char old) s = false -> replace_char old new s = s.
Proof.
  unfold replace_char. induction s as [ | c s IH]; trivial.
  simpl. intros H. apply orb_false_iff in H. destruct H as [Hc H].
  unfold eqb_char in *. rewrite N.eqb_sym, Hc. simpl. rewrite (IH H).
  reflexivity.
Qed.

(** *** [clean_location] *)

Lemma clean_location_shape loc r :
  clean_location (VStr loc) = Some r ->
  single_spaced r = true
  /\ ends_free space_or_comma r = true
  /\ ends_free is_space r = true
  /\ existsb (eqb_char newline) r = false.
Proof.
  unfold clean_location. intros [= <-].
  rewrite sub_plus_cls.
  set (t := collapse_go is_space (utf8 " ") false _).
  assert (single_spaced (strip_chars (utf8 " ,") t) = true) as Hs.
  { apply strip_single_spaced. apply collapse_single_spaced. }
  assert (ends_free space_or_comma (strip_chars (utf8 " ,") t) = true) as He.
  { apply strip_ends_free. }
  set (r := strip_chars (utf8 " ,") t) in *.
  assert (forall c, In c r -> is_space c = true -> space_or_comma c = true)
    as Hsp.
  { intros c Hin Hc. rewrite (single_spaced_space_only r c Hs Hin Hc).
    reflexivity. }
  repeat split; trivial.
  - unfold ends_free in *. apply andb_true_iff in He. destruct He as [H1 H2].
    apply andb_true_iff. split.
    + destruct r as [ | c r']; trivial.
      destruct (is_space c) eqn:E; trivial.
      rewrite (Hsp c (or_introl eq_refl) E) in H1. discriminate.
    + destruct (rev r) as [ | c w] eqn:Er; trivial.
      destruct (is_space c) eqn:E; trivial.
      assert (space_or_comma c = true) as Hx.
      { apply Hsp; trivial. apply in_rev. rewrite Er. now left. }
      rewrite Hx in H2. discriminate.
  - destruct (existsb (eqb_char newline) r) eqn:E; trivial.
    apply existsb_exists in E. destruct E as (c & Hin & Hc).
    apply N.eqb_eq in Hc. subst c.
    pose proof (single_spaced_space_only r newline Hs Hin eq_refl).
    discriminate.
Qed.

(** X5: the cleaned location holds no line break, its only white space is
    the single space between two other characters, and it neither starts
    nor ends with a space or a comma. *)
Theorem clean_location_normal_form loc r :
  clean_location (VStr loc) = Some r ->
  single_spaced r = true
  /\ ends_free space_or_comma r = true
  /\ existsb (eqb_char newline) r = false.
Proof.
  intros H. apply clean_location_shape in H. tauto.
Qed.

Lemma clean_location_normal_form_witness :
  clean_location (VStr (utf8 " , Số 10,   phố ABC ,
 Hà Nội, ,")) = Some (utf8 "Số 10, phố ABC , Hà Nội")
  /\ single_spaced (utf8 "Số 10, phố ABC , Hà Nội") = true
  /\ ends_free space_or_comma (utf8 "Số 10, phố ABC , Hà Nội") = true
  /\ existsb (eqb_char newline) (utf8 "Số 10, phố ABC , Hà Nội") = false.
Proof.
  split; [vm_compute; reflexivity | ].
  apply (clean_location_normal_form (utf8 " , Số 10,   phố ABC ,
 Hà Nội, ,")).
  vm_compute; reflexivity.
Defined.

(** X6: [clean_location] is idempotent: a cleaned location is left as it
    is. *)
Theorem clean_location_idempotent loc r :
  clean_location (VStr loc) = Some r -> clean_location (VStr r) = Some r.
Proof.
  intros H. apply clean_location_shape in H.
  destruct H as (Hs & He & Hw & Hn).
  unfold clean_location. rewrite (replace_absent _ _ _ Hn).
  unfold strip. rewrite (strip_fixed is_space r Hw).
  rewrite sub_plus_cls, (collapse_fixed r Hs).
  unfold strip_chars.
  rewrite (strip_fixed (fun c => mem_char c (utf8 " ,")) r He). reflexivity.
Qed.

Lemma clean_location_idempotent_witness :
  clean_location (VStr (utf8 "  Quận Ba Đình ,  Hà Nội, "))
    = Some (utf8 "Quận Ba Đình , Hà Nội")
  /\ clean_location (VStr (utf8 "Quận Ba Đình , Hà Nội"))
     = Some (utf8 "Quận Ba Đình , Hà Nội").
Proof.
  split; [vm_compute; reflexivity | ].
  apply (clean_location_idempotent (utf8 "  Quận Ba Đình ,  Hà Nội, ")).
  vm_compute; reflexivity.
Defined.

(** *** [extract_district] *)

Lemma district_piece_ends tolower s :
  exists d,
    extract_district tolower (VStr s) = Some d
    /\ piece_of d s
    /\ ends_free is_space d = true.
Proof.
  unfold extract_district.
  destruct (search (district_re tolower) s) as [[m rest] | ] eqn:E.
  - exists (strip m). repeat split; [ | apply strip_ends_free].
    apply search_some in E. destruct E as (pre & Hs & _).
    apply (piece_of_trans _ m); [apply strip_piece | ].
    exists pre, rest. exact Hs.
  - destruct (mem_char Price.comma s).
    + exists (strip (before_first Price.comma s)).
      repeat split; [ | apply strip_ends_free].
      apply (piece_of_trans _ (before_first Price.comma s));
        [apply strip_piece | ].
      destruct (before_first_prefix Price.comma s) as (t & Ht).
      exists [], t. exact Ht.
    + exists (strip s). repeat split; [apply strip_piece | ].
      apply strip_ends_free.
Qed.

Lemma district_is_piece_of tolower s :
  exists d, extract_district tolower (VStr s) = Some d /\ piece_of d s.
Proof.
  destruct (district_piece_ends tolower s) as (d & H1 & H2 & _). eauto.
Qed.

(** X7: on a string [extract_district] always returns a text; it is a
    contiguous piece of the input and has no white space at either end. *)
Theorem district_is_piece tolower s :
  exists d,
    extract_district tolower (VStr s) = Some d
    /\ piece_of d s
    /\ ends_free is_space d = true.
Proof. apply district_piece_ends. Qed.

(** *** [remove_emojis] *)

Lemma emojis_filtered text :
  remove_emojis text = filter (fun c => negb (is_astral c)) text.
Proof.
  unfold remove_emojis. rewrite ReMore.sub_cls.
  induction text as [ | c t IH]; trivial.
  simpl. destruct ((65536 <=? c)%N && (c <=? 1114111)%N) eqn:E;
    unfold is_astral; rewrite E; simpl; rewrite IH; reflexivity.
Qed.

Lemma flat_map_filter (p : char -> bool) s :
  flat_map (fun c => if p c then [] else [c]) s
  = filter (fun c => negb (p c)) s.
Proof.
  induction s as [ | c s IH]; trivial.
  simpl. destruct (p c); simpl; rewrite IH; reflexivity.
Qed.

(** X8: [remove_emojis] deletes exactly the code points from U+10000 to
    U+10FFFF, whatever they are, and keeps every other character in
    order. *)
Theorem remove_emojis_filter text :
  remove_emojis text = filter (fun c => negb (is_astral c)) text.
Proof.
  unfold remove_emojis. rewrite sub_cls. apply flat_map_filter.
Qed.

End LocationMore.

(** ** The table pass, column by column *)

Module CleanerMore.
Import Shape StrFacts FloatFacts PriceMore LocationMore Cleaner CleanerFacts.

Lemma mapM_raises (A B : Type) (f : A -> result B) xs e :
  mapM f xs = Raise e -> exists x, In x xs /\ f x = Raise e.
Proof.
  induction xs as [ | x xs IH]; simpl; [discriminate | ].
  destruct (f x) as [y | e'] eqn:E; simpl.
  - destruct (mapM f xs) as [ys | e'']; simpl; [discriminate | ].
    intros [= ->]. destruct (IH eq_refl) as (x' & Hin & Hx'). eauto.
  - intros [= ->]. eauto.
Qed.

Lemma drop_duplicates_distinct seen rows :
  NoDup (map url rows) ->
  (forall r, In r rows -> ~ In (url r) seen) ->
  drop_duplicates_go seen rows = rows.
Proof.
  revert seen. induction rows as [ | r rs IH]; intros seen Hnd Hs; trivial.
  simpl in *. inversion Hnd as [ | ? ? Hr Hnd']; subst.
  assert (existsb (eqb_cell (url r)) seen = false) as ->.
  { apply not_seen_iff. apply Hs. now left. }
  f_equal. apply IH; trivial.
  intros r' Hin [E | Hseen].
  - apply Hr. rewrite E. apply in_map, Hin.
  - apply (Hs r'); auto.
Qed.

(** X9: deduplication leaves a table as it is exactly when its urls are
    pairwise distinct; in particular it is idempotent, and it never
    lengthens the table. *)
Theorem drop_duplicates_fixed_iff rows :
  (drop_duplicates rows = rows <-> NoDup (map url rows))
  /\ drop_duplicates (drop_duplicates rows) = drop_duplicates rows
  /\ (List.length (drop_duplicates rows) <= List.length rows)%nat.
Proof.
  assert (forall rs, NoDup (map url rs) -> drop_duplicates rs = rs) as Hfix.
  { intros rs H. apply drop_duplicates_distinct; trivial. intros r _ []. }
  split; [split | split].
  - intros E. rewrite <- E. apply kept_urls_NoDup.
  - apply Hfix.
  - apply Hfix, kept_urls_NoDup.
  - unfold drop_duplicates. generalize (@nil cell).
    induction rows as [ | r rs IH]; intros seen; simpl; trivial.
    destruct (existsb (eqb_cell (url r)) seen); simpl.
    + specialize (IH seen). lia.
    + specialize (IH (url r :: seen)). lia.
Qed.

Section Pass.
Variable lower : str -> str.
Variable tolower : char -> char.
Variable float_of_text : str -> option float.
Variable numeric_of_text : str -> option float.

Local Abbreviation clean_row :=
  (clean_row lower tolower float_of_text numeric_of_text).
Local Abbreviation main := (main lower tolower float_of_text numeric_of_text).

(** X10: on a table whose rows kept by the deduplication all have a
    title, [main] aborts with AttributeError, writing no table, exactly
    when a kept row has a price text that is not blank and carries a
    negotiable marker; a marker in a dropped duplicate does not abort it.
    (A kept row without title is left out: what line 151 does with it
    depends on the version of pandas.) *)
Theorem main_aborts_iff rows :
  Forall (fun r => title r <> None) (drop_duplicates rows) ->
  (main rows = Raise AttributeError
   <-> exists r s,
         In r (drop_duplicates rows) /\ price_raw r = Some s
         /\ strip s <> []
         /\ Price.has_negotiable_marker (lower (strip s)) = true).
Proof.
  intros _. split.
  - unfold Cleaner.main.
    destruct (mapM clean_row (drop_duplicates rows)) as [out | e] eqn:E;
      simpl; [discriminate | ]. intros _.
    apply mapM_raises in E. destruct E as (r & Hin & Hr).
    unfold Cleaner.clean_row in Hr.
    destruct (Price.parse_price_to_million lower (value_of (price_raw r)))
      as [v | e'] eqn:Ep; simpl in Hr; [discriminate | ].
    apply (parse_cell_raises lower (price_raw r) e') in Ep.
    destruct Ep as (s & Hs & Hne & Hm). exists r, s. auto.
  - intros (r & s & Hin & Hs & Hne & Hm).
    apply (main_raises lower tolower float_of_text numeric_of_text rows r);
      trivial.
    apply (parse_cell_raises lower (price_raw r) AttributeError). eauto.
Qed.

(** X11: in every cleaned row, price_vnd_original is [float] of the
    price_vnd cell (absent when it does not convert); when the parser
    returns a number, price_million_final is that number, whatever
    price_vnd holds, and price_billion is that number divided by 1000; when
    the parser returns the absent value, price_million_final is
    price_vnd_original and price_billion is absent. *)
Theorem price_columns rows out imputed :
  main rows = Ret (out, imputed) ->
  Forall2 (fun r o =>
             o_price_vnd_original o
             = to_column (safe_float float_of_text (price_vnd r))
             /\ forall v,
                  Price.parse_price_to_million lower (value_of (price_raw r))
                  = Ret v ->
                  match v with
                  | Some x =>
                    o_price_million_final o = x
                    /\ o_price_billion o = div x (of_Z 1000)
                  | None =>
                    o_price_million_final o = o_price_vnd_original o
                    /\ absent (o_price_billion o) = true
                  end)
          (drop_duplicates rows) out.
Proof.
  intros Hmain. apply main_rows in Hmain. destruct Hmain as [F _].
  induction F as [ | r o rs os Hro _ IH]; constructor; trivial.
  revert Hro. unfold Cleaner.clean_row.
  destruct (Price.parse_price_to_million lower (value_of (price_raw r)))
    as [v0 | e] eqn:Ep; simpl; [ | discriminate].
  intros [= <-]. simpl. split; trivial.
  intros v [= <-]. destruct v0 as [x | ]; simpl.
  - apply parsed_number_nonneg, nonneg_not_nan in Ep.
    unfold price_billion_of. rewrite Ep. auto.
  - split; trivial.
    destruct (to_column (safe_float float_of_text (price_vnd r)));
      reflexivity.
Qed.

Lemma impute_absent_median o :
  absent (o_area_m2 o) = true -> impute nan o = o.
Proof.
  destruct o as [t u p f b v l d a sn]. unfold impute, absent. simpl.
  destruct a; try discriminate. reflexivity.
Qed.

Lemma median_of_absent xs :
  Forall (fun x => absent x = true) xs -> median xs = nan.
Proof.
  intros H. unfold median.
  assert (filter (fun x => negb (is_nan x)) xs = []) as ->; trivial.
  induction H as [ | x xs Hx _ IH]; trivial.
  simpl. unfold absent in Hx. rewrite Hx. exact IH.
Qed.

(** X12: the imputed table has the rows of the cleaned table, in order,
    with every column but area_m2 unchanged and every present area_m2
    unchanged; when no row has a present area_m2 the two tables are
    equal. *)
Theorem imputation_frame rows out imputed :
  main rows = Ret (out, imputed) ->
  Forall2 (fun o i =>
             o_title i = o_title o /\ o_url i = o_url o
             /\ o_price_raw_orig i = o_price_raw_orig o
             /\ o_price_million_final i = o_price_million_final o
             /\ o_price_billion i = o_price_billion o
             /\ o_price_vnd_original i = o_price_vnd_original o
             /\ o_location i = o_location o /\ o_district i = o_district o
             /\ o_snippet i = o_snippet o
             /\ (absent (o_area_m2 o) = false -> o_area_m2 i = o_area_m2 o))
          out imputed
  /\ ((forall o, In o out -> absent (o_area_m2 o) = true) -> imputed = out).
Proof.
  intros Hmain. apply main_rows in Hmain. destruct Hmain as [_ ->]. split.
  - generalize (median (map o_area_m2 out)). intros med.
    induction out as [ | o os IH]; simpl; constructor; trivial.
    repeat split; trivial. simpl. unfold absent. intros ->. reflexivity.
  - intros Habs. rewrite median_of_absent.
    + induction out as [ | o os IH]; trivial. simpl.
      rewrite impute_absent_median, IH; trivial.
      * intros o' Ho'. apply Habs. now right.
      * apply Habs. now left.
    + apply Forall_forall. intros a Ha. apply in_map_iff in Ha.
      destruct Ha as (o & <- & Ho). apply Habs, Ho.
Qed.

Lemma filter_no_astral t :
  existsb is_astral (filter (fun c => negb (is_astral c)) t) = false.
Proof.
  induction t as [ | c t IH]; trivial.
  cbn [filter]. destruct (is_astral c) eqn:E; cbn [negb]; trivial.
  cbn [existsb]. rewrite E, IH. reflexivity.
Qed.

Lemma strip_no_astral s :
  existsb is_astral s = false -> existsb is_astral (strip s) = false.
Proof.
  unfold strip. destruct (strip_split is_space s) as (a & b & H & _).
  intros E. rewrite H, !existsb_app in E.
  apply orb_false_iff in E. destruct E as [_ E].
  apply orb_false_iff in E. tauto.
Qed.

Lemma clean_row_text_fields r o :
  clean_row r = Ret o ->
  o_title o = strip (remove_emojis (astype_str (title r)))
  /\ o_snippet o = strip (match snippet r with Some s => s | None => [] end)
  /\ o_location o = District.clean_location (value_of (location r))
  /\ o_district o
     = District.extract_district tolower
         (match District.clean_location (value_of (location r)) with
          | Some s => VStr s
          | None => VNone
          end).
Proof.
  unfold Cleaner.clean_row.
  destruct (Price.parse_price_to_million lower (value_of (price_raw r)));
    [ | discriminate].
  intros [= <-]. repeat split; reflexivity.
Qed.

(** X13: in every cleaned row, the title has no code point above U+FFFF
    and no white space at either end; the snippet has no white space at
    either end, and a missing snippet is the empty text; a missing
    location gives a missing district, and otherwise the location is
    single-spaced, without space or comma at either end, and the district
    is a piece of it. *)
Theorem text_columns rows out imputed :
  main rows = Ret (out, imputed) ->
  Forall2 (fun r o =>
             existsb is_astral (o_title o) = false
             /\ ends_free is_space (o_title o) = true
             /\ ends_free is_space (o_snippet o) = true
             /\ (snippet r = None -> o_snippet o = [])
             /\ match location r with
                | None => o_location o = None /\ o_district o = None
                | Some _ =>
                  exists l d,
                    o_location o = Some l /\ o_district o = Some d
                    /\ single_spaced l = true
                    /\ ends_free space_or_comma l = true
                    /\ piece_of d l
                end)
          (drop_duplicates rows) out.
Proof.
  intros Hmain. apply main_rows in Hmain. destruct Hmain as [F _].
  induction F as [ | r o rs os Hro _ IH]; constructor; trivial.
  destruct (clean_row_text_fields r o Hro) as (Ht & Hsn & Hl & Hd).
  rewrite Ht, Hsn, Hd, Hl.
  split; [ | split; [ | split; [ | split]]].
  - apply strip_no_astral. rewrite emojis_filtered. apply filter_no_astral.
  - apply strip_ends_free.
  - apply strip_ends_free.
  - intros ->. reflexivity.
  - destruct (location r) as [loc | ]; cbn [value_of].
    + destruct (District.clean_location (VStr loc)) as [l | ] eqn:El;
        [ | discriminate].
      destruct (district_is_piece_of tolower l) as (d & Hd' & Hp).
      destruct (clean_location_shape loc l El) as (Hs & He & _).
      exists l, d. auto.
    + split; reflexivity.
Qed.

End Pass.

(** *** The sample table *)

Import Examples.

Lemma price_columns_witness :
  run table = Ret (table_out, table_imputed)
  /\ Forall2 (fun r o =>
                o_price_vnd_original o
                = to_column (safe_float of_decimal (price_vnd r))
                /\ forall v,
                     Price.parse_price_to_million lower_latin
                       (value_of (price_raw r)) = Ret v ->
                     match v with
                     | Some x =>
                       o_price_million_final o = x
                       /\ o_price_billion o = div x (of_Z 1000)
                     | None =>
                       o_price_million_final o = o_price_vnd_original o
                       /\ absent (o_price_billion o) = true
                     end)
             (drop_duplicates table) table_out.
Proof.
  split; [vm_compute; reflexivity | ].
  apply (price_columns lower_latin District.tolower_latin of_decimal
           of_decimal table table_out table_imputed).
  vm_compute; reflexivity.
Defined.

Lemma imputation_frame_witness :
  run table = Ret (table_out, table_imputed)
  /\ Forall2 (fun o i =>
                o_title i = o_title o /\ o_url i = o_url o
                /\ o_price_raw_orig i = o_price_raw_orig o
                /\ o_price_million_final i = o_price_million_final o
                /\ o_price_billion i = o_price_billion o
                /\ o_price_vnd_original i = o_price_vnd_original o
                /\ o_location i = o_location o /\ o_district i = o_district o
                /\ o_snippet i = o_snippet o
                /\ (absent (o_area_m2 o) = false ->
                    o_area_m2 i = o_area_m2 o))
             table_out table_imputed
  /\ ((forall o, In o table_out -> absent (o_area_m2 o) = true) ->
      table_imputed = table_out).
Proof.
  split; [vm_compute; reflexivity | ].
  apply (imputation_frame lower_latin District.tolower_latin of_decimal
           of_decimal table table_out table_imputed).
  vm_compute; reflexivity.
Defined.

Lemma text_columns_witness :
  run table_titled = Ret (table_titled_out, table_titled_imputed)
  /\ Forall2 (fun r o =>
                existsb is_astral (o_title o) = false
                /\ ends_free is_space (o_title o) = true
                /\ ends_free is_space (o_snippet o) = true
                /\ (snippet r = None -> o_snippet o = [])
                /\ match location r with
                   | None => o_location o = None /\ o_district o = None
                   | Some _ =>
                     exists l d,
                       o_location o = Some l /\ o_district o = Some d
                       /\ single_spaced l = true
                       /\ ends_free space_or_comma l = true
                       /\ piece_of d l
                   end)
             (drop_duplicates table_titled) table_titled_out.
Proof.
  split; [vm_compute; reflexivity | ].
  apply (text_columns lower_latin District.tolower_latin of_decimal
           of_decimal table_titled table_titled_out table_titled_imputed).
  vm_compute; reflexivity.
Defined.

Lemma titled_rows_kept :
  drop_duplicates table_titled = [listing_a; listing_d; listing_c]
  /\ drop_duplicates table_with_marker
     = [listing_a; listing_negotiable; listing_c]
  /\ drop_duplicates table_with_dropped_marker
     = [listing_a; listing_d; listing_c].
Proof. repeat split; vm_compute; reflexivity. Qed.

Lemma main_aborts_iff_witness :
  Forall (fun r => title r <> None) (drop_duplicates table_with_marker)
  /\ (run table_with_marker = Raise AttributeError
      <-> exists r s,
            In r (drop_duplicates table_with_marker)
            /\ price_raw r = Some s /\ strip s <> []
            /\ Price.has_negotiable_marker (lower_latin (strip s)) = true).
Proof.
  assert (Forall (fun r => title r <> None)
            (drop_duplicates table_with_marker)) as H.
  { destruct titled_rows_kept as (_ & -> & _).
    repeat constructor; vm_compute; discriminate. }
  split; [exact H | ].
  apply (main_aborts_iff lower_latin District.tolower_latin of_decimal
           of_decimal table_with_marker H).
Defined.

(** The negotiable price of a kept row aborts the pass; in a dropped
    duplicate it does not. *)
Lemma marker_in_kept_row_only :
  run table_with_marker = Raise AttributeError
  /\ run table_with_dropped_marker = run table_titled.
Proof. split; vm_compute; reflexivity. Qed.

End CleanerMore.
